(** * pdfOcr2Word: the page pipeline of [converter/pdf_ocr_to_word.py]

    A shallow embedding of the conversion module: Python strings as lists of
    code points, the two regular expressions of the text reconstruction
    through a small backtracking matcher, the worker pool as a schedule of
    atomic worker steps over an explicit store, and the three conversions as
    programs of a state-and-exception monad. *)

From Stdlib Require Import String Ascii.
From stdpp Require Import base list numbers.
From stdpp Require gmap.

Set Warnings "-clear-no-such-hyp".
Local Open Scope N_scope.

(** ** Python strings *)

Module PyStr.

(** A Python [str] is a sequence of Unicode code points. *)
Definition str : Type := list N.

(** Code points of a UTF-8 encoded literal, to write the examples the way
    the source file writes its strings. *)
Fixpoint utf8_cont (n : nat) (acc : N) (bs : list N) : N * list N :=
  match n, bs with
  | S k, b :: bs' => utf8_cont k (acc * 64 + N.land b 63) bs'
  | _, _ => (acc, bs)
  end.

Fixpoint utf8_decode (fuel : nat) (bs : list N) : str :=
  match fuel, bs with
  | S f, b :: bs' =>
      if b <? 128 then b :: utf8_decode f bs'
      else if b <? 224 then
        let '(c, r) := utf8_cont 1 (N.land b 31) bs' in c :: utf8_decode f r
      else if b <? 240 then
        let '(c, r) := utf8_cont 2 (N.land b 15) bs' in c :: utf8_decode f r
      else
        let '(c, r) := utf8_cont 3 (N.land b 7) bs' in c :: utf8_decode f r
  | _, _ => []
  end.

Definition u (s : string) : str :=
  let bs := map N_of_ascii (list_ascii_of_string s) in
  utf8_decode (length bs) bs.

Definition str_eqb (a b : str) : bool := bool_decide (a = b).

(** [str.isspace] on one code point, which is also the class [\s] of [re]
    on a [str] pattern: the code points CPython lists as white space. *)
Definition isspace (c : N) : bool :=
  ((9 <=? c) && (c <=? 13)) || ((28 <=? c) && (c <=? 32))
  || (c =? 133) || (c =? 160) || (c =? 5760)
  || ((8192 <=? c) && (c <=? 8202))
  || (c =? 8232) || (c =? 8233) || (c =? 8239) || (c =? 8287) || (c =? 12288).

(** The line boundaries of [str.splitlines]. *)
Definition is_linebreak (c : N) : bool :=
  ((10 <=? c) && (c <=? 13)) || ((28 <=? c) && (c <=? 30))
  || (c =? 133) || (c =? 8232) || (c =? 8233).

Fixpoint lstrip (s : str) : str :=
  match s with
  | c :: s' => if isspace c then lstrip s' else s
  | [] => []
  end.

Definition rstrip (s : str) : str := rev (lstrip (rev s)).

(** [s.strip()] *)
Definition strip (s : str) : str := rstrip (lstrip s).

(** [s.splitlines()]: [cur] holds the current line, reversed. A carriage
    return followed by a line feed is one boundary, and a final boundary
    opens no further line. *)
Fixpoint splitlines_from (cur : str) (s : str) : list str :=
  match s with
  | [] => match cur with [] => [] | _ => [rev cur] end
  | c :: s' =>
      if is_linebreak c then
        rev cur ::
          match s' with
          | d :: s'' =>
              if (c =? 13) && (d =? 10) then splitlines_from [] s''
              else splitlines_from [] s'
          | [] => splitlines_from [] s'
          end
      else splitlines_from (c :: cur) s'
  end.

Definition splitlines (s : str) : list str := splitlines_from [] s.

Fixpoint startswith (s prefix : str) : bool :=
  match prefix, s with
  | [], _ => true
  | p :: prefix', c :: s' => (c =? p) && startswith s' prefix'
  | _ :: _, [] => false
  end.

(** [s.endswith(suffix)] *)
Definition endswith (s suffix : str) : bool := startswith (rev s) (rev suffix).

(** [s.endswith(tuple)] *)
Definition endswith_any (s : str) (suffixes : list str) : bool :=
  existsb (endswith s) suffixes.

(** [sep.join(parts)] *)
Fixpoint join (sep : str) (parts : list str) : str :=
  match parts with
  | [] => []
  | [p] => p
  | p :: rest => p ++ sep ++ join sep rest
  end.

(** [s.replace(old, new)]: the occurrences of [old] are taken from the left
    and do not overlap; [skip] counts the code points of the occurrence
    being replaced that are still to be passed. An empty [old] matches
    between any two code points and at both ends. *)
Fixpoint replace_scan (old new : str) (skip : nat) (s : str) : str :=
  match s with
  | [] => []
  | c :: s' =>
      match skip with
      | S k => replace_scan old new k s'
      | O =>
          if startswith s old
          then new ++ replace_scan old new (Nat.pred (length old)) s'
          else c :: replace_scan old new O s'
      end
  end.

Definition replace (s old new : str) : str :=
  match old with
  | [] => new ++ flat_map (fun c => c :: new) s
  | _ :: _ => replace_scan old new O s
  end.

(** [s.lower()] restricted to what a comparison with an ASCII text can
    see: the ASCII capitals, and the two code points outside ASCII whose
    lower case contains an ASCII letter (U+0130, which lowers to [i] and
    U+0307, and the Kelvin sign U+212A, which lowers to [k]). Every other
    cased code point lowers to code points outside ASCII and is left as it
    is here. *)
Definition lower_cp (c : N) : str :=
  if (65 <=? c) && (c <=? 90) then [c + 32]
  else if c =? 304 then [105; 775]
  else if c =? 8490 then [107]
  else [c].

Definition lower (s : str) : str := flat_map lower_cp s.

(** Truth value of a [str]: the empty string is false. *)
Definition truthy (s : str) : bool := negb (str_eqb s []).

(** [x or ""] for [x : Optional[str]] *)
Definition or_empty (x : option str) : str :=
  match x with
  | Some s => if truthy s then s else []
  | None => []
  end.

End PyStr.
Import PyStr.

(** ** The fragment of [re] the module uses *)

Module Re.

(** A pattern is a sequence of items, each a character class taken once or
    one or more times (greedy, giving characters back on failure). *)
Inductive item : Type :=
  | One (cls : N -> bool)
  | Many1 (cls : N -> bool).

(** [match_here p s]: the match of [p] at the start of [s], as the texts
    matched by the items of [p] in order. *)
Fixpoint match_here (p : list item) (s : str) {struct p} : option (list str) :=
  match p with
  | [] => Some []
  | One cls :: p' =>
      match s with
      | c :: s' => if cls c then (fun gs => [c] :: gs) <$> match_here p' s' else None
      | [] => None
      end
  | Many1 cls :: p' =>
      (fix many (s : str) : option (list str) :=
         match s with
         | c :: s' =>
             if cls c then
               match many s' with
               | Some (g :: gs) => Some ((c :: g) :: gs)
               | _ => (fun gs => [c] :: gs) <$> match_here p' s'
               end
             else None
         | [] => None
         end) s
  end.

(** [re.sub(p, repl, s)] for a pattern whose matches are never empty: the
    matches are found from the left and do not overlap; [skip] counts the
    code points of the current match that are still to be passed. [repl]
    builds the replacement from the texts of the items. *)
Fixpoint sub_scan (p : list item) (repl : list str -> str) (skip : nat) (s : str) : str :=
  match s with
  | [] => []
  | c :: s' =>
      match skip with
      | S k => sub_scan p repl k s'
      | O =>
          match match_here p s with
          | Some gs => repl gs ++ sub_scan p repl (Nat.pred (length (concat gs))) s'
          | None => c :: sub_scan p repl O s'
          end
      end
  end.

Definition sub (p : list item) (repl : list str -> str) (s : str) : str :=
  sub_scan p repl O s.

End Re.

(** ** Text reconstruction *)

(** The class [[一-龥]]. *)
Definition is_cjk (c : N) : bool := (19968 <=? c) && (c <=? 40869).

(** The replacement [r"\1\2"] of the pattern with the three items
    [([一-龥])], [\s+], [([一-龥])]. *)
Definition groups_1_2 (gs : list str) : str :=
  match gs with
  | [g1; _; g2] => g1 ++ g2
  | _ => []
  end.

Definition _clean_chinese_spacing (text : str) : str :=
  Re.sub [Re.One is_cjk; Re.Many1 isspace; Re.One is_cjk] groups_1_2 text.

(** [re.sub(r"\s+", " ", ln)] *)
Definition collapse_spaces (ln : str) : str :=
  Re.sub [Re.Many1 isspace] (fun _ => [32]) ln.

(** The tuple [end_punct]. *)
Definition end_punct : list str :=
  [ [12290]; [65281]; [65311]; [33]; [63]; [65306]; [58]; [65307]; [59];
    [8230]; [8221]; [34]; [65289]; [41] ].

(** One turn of the loop over [lines], on the pair [(merged, buf)]. *)
Definition merge_step (st : list str * str) (ln : str) : list str * str :=
  let '(merged, buf) := st in
  let ln := _clean_chinese_spacing ln in
  let ln := collapse_spaces ln in
  if negb (truthy buf) then (merged, ln)
  else if endswith_any buf end_punct then (merged ++ [buf], ln)
  else (merged, buf ++ [32] ++ ln).

Definition nonblank_lines (text : str) : list str :=
  map strip (filter (fun ln => strip ln ≠ []) (splitlines text)).

Definition _format_page_text (text : str) : str :=
  let text := strip text in
  if negb (truthy text) then []
  else
    let lines := nonblank_lines text in
    let '(merged, buf) := fold_left merge_step lines ([], []) in
    let merged := if truthy buf then merged ++ [buf] else merged in
    join [10; 10] merged.

Local Close Scope N_scope.

(** ** The outside world *)

(** The exceptions the module raises, with their messages. *)
Inductive exn : Type :=
  | FileNotFoundError (msg : str)
  | ValueError (msg : str)
  | RuntimeError (msg : str).

Inductive result (A : Type) : Type :=
  | Ok (a : A)
  | Raise (e : exn).
Arguments Ok {A} a.
Arguments Raise {A} e.

(** What is written into a document, in order: a block per call of
    [add_paragraph] or [add_page_break]. *)
Inductive block : Type :=
  | Paragraph (text : str)
  | PageBreak.

Record Document : Type := mkDocument {
  normal_font : option str;
  normal_size_pt : option Z;
  east_asia_font : option str;
  body : list block
}.

(** The state the module acts on: the calls [progress_callback] has
    received (oldest first), the cell of the counter [processed], the
    directories made and the documents saved. *)
Record Store : Type := mkStore {
  calls : list (nat * nat);
  processed : nat;
  dirs : list str;
  files : list (str * Document)
}.

(** The collaborators: the file system paths, pdf2image, pytesseract,
    PaddleOCR, pdfplumber, PyMuPDF and ocrmac. An optional import that
    failed is [None]. *)
Record Env : Type := mkEnv {
  Image : Type;
  Pixmap : Type;
  Box : Type;
  Score : Type;
  path_exists : str -> bool;
  abspath : str -> str;
  dirname : str -> str;
  convert_from_path : str -> Z -> option str -> list Image;
  image_to_string : Image -> str -> str -> str;
  PaddleOCR : option (str -> Image -> list (list (Box * (str * Score))));
  pdfplumber_pages : str -> list (option str);
  fitz : option (str -> Z -> list Pixmap);
  ocrmac : option (Pixmap -> list (str * Score * Box))
}.

(** ** State and exceptions *)

Definition M (A : Type) : Type := Store -> result A * Store.

Definition ret {A} (a : A) : M A := fun st => (Ok a, st).

Definition raise {A} (e : exn) : M A := fun st => (Raise e, st).

Definition bind {A B} (m : M A) (k : A -> M B) : M B :=
  fun st =>
    match m st with
    | (Ok a, st') => k a st'
    | (Raise e, st') => (Raise e, st')
    end.

Declare Scope py_scope.
Delimit Scope py_scope with py.
Notation "x <- m ;; k" := (bind m (fun x => k))
  (at level 100, m at next level, right associativity) : py_scope.
Notation "m ;;; k" := (bind m (fun _ => k))
  (at level 100, right associativity) : py_scope.
Local Open Scope py_scope.

Definition modify (f : Store -> Store) : M unit := fun st => (Ok tt, f st).

Definition get_processed : M nat := fun st => (Ok (processed st), st).

Definition set_processed (n : nat) : M unit :=
  modify (fun st => mkStore (calls st) n (dirs st) (files st)).

(** [for x in l: acc = body acc x] *)
Fixpoint for_each {A B} (l : list A) (body : B -> A -> M B) (acc : B) : M B :=
  match l with
  | [] => ret acc
  | x :: l' => acc' <- body acc x ;; for_each l' body acc'
  end.

(** [enumerate(l, start)] *)
Fixpoint enumerate {A} (start : nat) (l : list A) : list (nat * A) :=
  match l with
  | [] => []
  | x :: l' => (start, x) :: enumerate (S start) l'
  end.

(** The callable is opaque: the module only calls it, and the store keeps
    the calls. *)
Definition Callable : Type := unit.

(** [if progress_callback is not None: progress_callback(current, total)] *)
Definition notify (progress_callback : option Callable) (current total : nat) : M unit :=
  match progress_callback with
  | Some _ =>
      modify (fun st => mkStore (calls st ++ [(current, total)]) (processed st)
                                (dirs st) (files st))
  | None => ret tt
  end.

Definition makedirs (d : str) : M unit :=
  modify (fun st => mkStore (calls st) (processed st) (dirs st ++ [d]) (files st)).

(** [doc.save(path)] *)
Definition save (doc : Document) (path : str) : M unit :=
  modify (fun st => mkStore (calls st) (processed st) (dirs st)
                            (files st ++ [(path, doc)])).

(** ** The thread pool *)

(** [ThreadPoolExecutor(max_workers=...)] *)
Definition ThreadPoolExecutor (max_workers : option Z) : M unit :=
  match max_workers with
  | Some w =>
      if (w <=? 0)%Z
      then raise (ValueError (u "max_workers must be greater than 0"))
      else ret tt
  | None => ret tt
  end.

(** The tasks run to completion one after the other in the order the
    schedule names them; [futs] holds the outcome of the tasks that have
    completed, by index of submission. A task runs once: an index that is
    out of range or names a completed task is passed over. *)
Fixpoint run_tasks {A B} (f : A -> M B) (items : list A) (sched : list nat)
    (futs : list (option (result B))) (st : Store)
    : list (option (result B)) * Store :=
  match sched with
  | [] => (futs, st)
  | i :: sched' =>
      match futs !! i, items !! i with
      | Some None, Some a =>
          let '(r, st') := f a st in
          run_tasks f items sched' (<[i := Some r]> futs) st'
      | _, _ => run_tasks f items sched' futs st
      end
  end.

(** The iterator of [executor.map] hands the results over in the order of
    submission and raises the exception of the first task that failed. Once
    the pool has drained every future is there. *)
Fixpoint collect {B} (futs : list (option (result B))) : result (list B) :=
  match futs with
  | [] => Ok []
  | Some (Ok b) :: rest =>
      match collect rest with
      | Ok bs => Ok (b :: bs)
      | Raise e => Raise e
      end
  | Some (Raise e) :: _ => Raise e
  | None :: rest => collect rest
  end.

(** [executor.map(f, items)], drained. The workers complete in the order
    of [sched]; the tasks it leaves out complete after those, in the order
    of submission, so that every list is a schedule and every order of
    completion is one. *)
Definition executor_map {A B} (sched : list nat) (f : A -> M B) (items : list A)
    : M (list B) :=
  fun st =>
    let n := length items in
    let '(futs, st') := run_tasks f items (sched ++ seq 0 n) (replicate n None) st in
    (collect futs, st').

Section Pipeline.

Variable E : Env.

(** ** Recognition *)

(** The instances are kept per language in [_paddle_ocr_instances]; an
    instance is a function of the language, so the table is not seen. *)
Definition _get_paddle_ocr (lang : str)
    : result (Image E -> list (list (Box E * (str * Score E)))) :=
  match PaddleOCR E with
  | None => Raise (RuntimeError (u "未安装 PaddleOCR，请先安装 paddleocr 和 paddlepaddle 再使用 ocr_engine='paddle'"))
  | Some make => Ok (make lang)
  end.

Definition _ocr_image_to_text_tesseract (image : Image E) (lang : str) : result str :=
  let config := u "--psm 3" in
  let text := image_to_string E image lang config in
  Ok (strip text).

Definition _ocr_image_to_text_paddle (image : Image E) (lang : str) : result str :=
  match _get_paddle_ocr lang with
  | Raise e => Raise e
  | Ok ocr =>
      let result := ocr image in
      let lines := flat_map (fun page => map (fun line => fst (snd line)) page) result in
      Ok (strip (join [10%N] lines))
  end.

(** The text a worker obtains for one image, before the progress step. *)
Definition recognise (ocr_engine lang : str) (img : Image E) : result str :=
  match
    (if str_eqb ocr_engine (u "paddle")
     then _ocr_image_to_text_paddle img lang
     else _ocr_image_to_text_tesseract img lang)
  with
  | Ok text => Ok (or_empty (Some text))
  | Raise e => Raise e
  end.

(** The closure [worker]: the increment of [processed] and the call of
    the callback are one step, taken under the lock. *)
Definition worker (lang ocr_engine : str) (progress_callback : option Callable)
    (total : nat) (item : nat * Image E) : M (nat * str) :=
  let '(idx, img) := item in
  match recognise ocr_engine lang img with
  | Raise e => raise e
  | Ok text =>
      match progress_callback with
      | Some _ =>
          n <- get_processed ;;
          set_processed (n + 1) ;;;
          notify progress_callback (n + 1) total
      | None => ret tt
      end ;;;
      ret (idx, text)
  end.

Definition _ocr_pages_in_parallel (sched : list nat) (images : list (Image E))
    (lang ocr_engine : str) (max_workers : option Z)
    (progress_callback : option Callable) : M (list str) :=
  let total := length images in
  let results : list (option str) := replicate total None in
  set_processed 0 ;;;
  notify progress_callback 0 total ;;;
  ThreadPoolExecutor max_workers ;;;
  rs <- executor_map sched (worker lang ocr_engine progress_callback total)
                     (enumerate 0 images) ;;
  let results :=
    fold_left (fun res '(idx, text) => <[idx := Some text]> res) rs results in
  ret (map or_empty results).

(** ** Reading the text layer *)

(** The body of the loop over the pages, without the progress step. *)
Definition text_layer_page (remove_tokens : option (list str)) (auto_format : bool)
    (extracted : option str) : str :=
  match extracted with
  | Some content =>
      if truthy content then
        let content := _clean_chinese_spacing content in
        let content :=
          match remove_tokens with
          | Some tokens => fold_left (fun c token => replace c token []) tokens content
          | None => content
          end in
        let content := if auto_format then _format_page_text content else content in
        strip content
      else []
  | None => []
  end.

Definition _extract_text_layer_pages (pdf_path : str)
    (remove_tokens : option (list str)) (progress_callback : option Callable)
    (auto_format : bool) : M (list str) :=
  let pages := pdfplumber_pages E pdf_path in
  let total := length pages in
  notify progress_callback 0 total ;;;
  set_processed 0 ;;;
  for_each (enumerate 1 pages)
    (fun texts '(idx, page) =>
       let texts := texts ++ [text_layer_page remove_tokens auto_format page] in
       n <- get_processed ;;
       set_processed (n + 1) ;;;
       notify progress_callback (n + 1) total ;;;
       ret texts)
    [].

(** ** Writing the document *)

Definition new_Document : Document := mkDocument None None None [].

Definition _apply_default_font (doc : Document) (font_name : str) (font_size_pt : Z)
    : Document :=
  mkDocument (Some font_name) (Some font_size_pt) (Some font_name) (body doc).

Definition add_paragraph (doc : Document) (text : str) : Document :=
  mkDocument (normal_font doc) (normal_size_pt doc) (east_asia_font doc)
             (body doc ++ [Paragraph text]).

Definition add_page_break (doc : Document) : Document :=
  mkDocument (normal_font doc) (normal_size_pt doc) (east_asia_font doc)
             (body doc ++ [PageBreak]).

(** The loop [for idx, text in enumerate(page_texts, start=1)] that fills
    the document. *)
Definition write_pages (doc : Document) (page_texts : list str) : Document :=
  fold_left
    (fun doc '(idx, text) =>
       let doc := add_paragraph doc (or_empty (Some text)) in
       if negb (idx =? length page_texts) then add_page_break doc else doc)
    (enumerate 1 page_texts) doc.

(** The path the document is saved at. *)
Definition docx_path (output_path : str) : str :=
  if negb (endswith (lower output_path) (u ".docx"))
  then output_path ++ u ".docx"
  else output_path.

Definition output_dir_of (output_path : str) : str :=
  let d := dirname E (abspath E output_path) in
  if truthy d then d else u ".".

(** ** The three conversions *)

Definition extract_pdf_text_to_docx (pdf_path output_path : str)
    (remove_tokens : option (list str)) (progress_callback : option Callable)
    (auto_format : bool) (font_name : str) (font_size_pt : Z) : M str :=
  if negb (path_exists E pdf_path)
  then raise (FileNotFoundError (u "PDF 文件不存在: " ++ pdf_path))
  else
    makedirs (output_dir_of output_path) ;;;
    page_texts <- _extract_text_layer_pages pdf_path remove_tokens
                    progress_callback auto_format ;;
    let doc := new_Document in
    let doc := _apply_default_font doc font_name font_size_pt in
    let doc := write_pages doc page_texts in
    let output_path := docx_path output_path in
    save doc output_path ;;;
    ret (abspath E output_path).

Definition convert_pdf_to_docx (sched : list nat) (pdf_path output_path : str)
    (lang : str) (dpi : Z) (poppler_path : option str) (ocr_engine : str)
    (max_workers : option Z) (progress_callback : option Callable)
    (auto_format : bool) (font_name : str) (font_size_pt : Z) : M str :=
  if negb (path_exists E pdf_path)
  then raise (FileNotFoundError (u "PDF 文件不存在: " ++ pdf_path))
  else
    makedirs (output_dir_of output_path) ;;;
    let images := convert_from_path E pdf_path dpi poppler_path in
    match images with
    | [] => raise (ValueError (u "PDF 转换为图片失败，未得到任何页面。"))
    | _ :: _ =>
        page_texts <- _ocr_pages_in_parallel sched images lang ocr_engine
                        max_workers progress_callback ;;
        let page_texts :=
          if auto_format then map _format_page_text page_texts else page_texts in
        let doc := new_Document in
        let doc := _apply_default_font doc font_name font_size_pt in
        let doc := write_pages doc page_texts in
        let output_path := docx_path output_path in
        save doc output_path ;;;
        ret (abspath E output_path)
    end.

(** One page of the Vision path: the image goes through a temporary file
    that is removed again before the next page, which leaves no trace in
    the store. *)
Definition mac_page_text (recognize : Pixmap E -> list (str * Score E * Box E))
    (pix : Pixmap E) : str :=
  let results := recognize pix in
  match results with
  | [] => []
  | _ :: _ => join [10%N] (map (fun item => fst (fst item)) results)
  end.

Definition convert_pdf_to_docx_mac_vision (pdf_path output_path : str) (dpi : Z)
    (progress_callback : option Callable) (auto_format : bool)
    (font_name : str) (font_size_pt : Z) : M str :=
  match fitz E, ocrmac E with
  | None, _ => raise (RuntimeError (u "未安装 PyMuPDF(fitz)，请先 pip install PyMuPDF"))
  | Some _, None => raise (RuntimeError (u "未安装 ocrmac，请先 pip install ocrmac"))
  | Some open_pdf, Some recognize =>
      if negb (path_exists E pdf_path)
      then raise (FileNotFoundError (u "PDF 文件不存在: " ++ pdf_path))
      else
        makedirs (output_dir_of output_path) ;;;
        let doc_pdf := open_pdf pdf_path dpi in
        let total := length doc_pdf in
        notify progress_callback 0 total ;;;
        set_processed 0 ;;;
        page_texts <-
          for_each (enumerate 1 doc_pdf)
            (fun page_texts '(idx, page) =>
               let page_texts := page_texts ++ [mac_page_text recognize page] in
               n <- get_processed ;;
               set_processed (n + 1) ;;;
               notify progress_callback (n + 1) total ;;;
               ret page_texts)
            [] ;;
        let docx := new_Document in
        let docx := _apply_default_font docx font_name font_size_pt in
        let page_texts :=
          if auto_format then map _format_page_text page_texts else page_texts in
        let docx := write_pages docx page_texts in
        let output_path := docx_path output_path in
        save docx output_path ;;;
        ret (abspath E output_path)
  end.

End Pipeline.

(** * The vocabulary of the properties *)

(** ** The tasks of the pool *)

(** The effect of the task of index [i]. *)
Definition task_effect {A} (eff : A -> Store -> Store) (items : list A)
    (st : Store) (i : nat) : Store :=
  match items !! i with
  | Some a => eff a st
  | None => st
  end.

(** The futures are in step with the tasks: one slot per task, and a
    completed slot holds the outcome of its task. *)
Definition futures_ok {A B} (out : A -> result B) (items : list A)
    (futs : list (option (result B))) : Prop :=
  length futs = length items /\
  forall i r, futs !! i = Some (Some r) -> exists a, items !! i = Some a /\ r = out a.

(** ** The progress counter *)

(** One completed page: the counter goes up by one and the callback, when
    there is one, receives the new value. *)
Definition progress_step (cb : option Callable) (total : nat) (st : Store) : Store :=
  match cb with
  | Some _ => mkStore (calls st ++ [(processed st + 1, total)]) (processed st + 1)
                      (dirs st) (files st)
  | None => st
  end.

(** One page done in the text-layer and Vision loops: the counter goes up
    whether or not there is a callback. *)
Definition page_step (cb : option Callable) (total : nat) (st : Store) : Store :=
  mkStore (calls st ++ match cb with Some _ => [(processed st + 1, total)] | None => [] end)
          (processed st + 1) (dirs st) (files st).

(** The calls [(k+1, total)], ..., [(k+n, total)]. *)
Definition count_up (total k n : nat) : list (nat * nat) :=
  map (fun j => (j, total)) (seq (S k) n).

(** What a listener sees during one run over [N] pages. *)
Definition progress_report (N : nat) (log : list (nat * nat)) : Prop :=
  log !! 0 = Some (0, N) /\
  length log = S N /\
  (forall i c d, (fst <$> log) !! i = Some c -> (fst <$> log) !! S i = Some d -> c <= d) /\
  Forall (fun call => snd call = N) log /\
  list.last log = Some (N, N).

(** The store after a run over [N] pages that called back throughout. *)
Definition after_pages (cb : option Callable) (N : nat) (st : Store) : Store :=
  match cb with
  | Some _ => mkStore (calls st ++ (0, N) :: count_up N 0 N) N (dirs st) (files st)
  | None => mkStore (calls st) 0 (dirs st) (files st)
  end.

(** The store after an inline run over [N] pages. *)
Definition after_loop (cb : option Callable) (N : nat) (st : Store) : Store :=
  mkStore (calls st ++ match cb with
                       | Some _ => (0, N) :: count_up N 0 N
                       | None => []
                       end)
          N (dirs st) (files st).

(** ** Recognised pages *)

(** What the task of one page returns. *)
Definition outcome (E : Env) (lang ocr_engine : str) (item : nat * Image E)
    : result (nat * str) :=
  match recognise E ocr_engine lang (snd item) with
  | Ok text => Ok (fst item, text)
  | Raise e => Raise e
  end.

(** What the task of one page does to the store. *)
Definition worker_effect (E : Env) (lang ocr_engine : str) (cb : option Callable)
    (total : nat) (item : nat * Image E) (st : Store) : Store :=
  match recognise E ocr_engine lang (snd item) with
  | Ok _ => progress_step cb total st
  | Raise _ => st
  end.

(** The pages are all recognised, each with its text. *)
Definition recognised (E : Env) (lang ocr_engine : str) (images : list (Image E))
    (texts : list str) : Prop :=
  Forall2 (fun img text => recognise E ocr_engine lang img = Ok text) images texts.

(** [max_workers] is left out or is at least one. *)
Definition workers_ok (max_workers : option Z) : Prop :=
  match max_workers with
  | Some w => (1 <= w)%Z
  | None => True
  end.

(** A run over [N] pages that takes the store from [st] to [st']: the
    parallel processor, the reader of the text layer, or the loop of the
    Vision conversion. *)
Inductive page_run (E : Env) (cb : option Callable) : nat -> Store -> Store -> Prop :=
  | run_parallel sched images lang ocr_engine max_workers texts st st' :
      _ocr_pages_in_parallel E sched images lang ocr_engine max_workers cb st
        = (Ok texts, st') ->
      page_run E cb (length images) st st'
  | run_text_layer pdf_path remove_tokens auto_format texts st st' :
      _extract_text_layer_pages E pdf_path remove_tokens cb auto_format st
        = (Ok texts, st') ->
      page_run E cb (length (pdfplumber_pages E pdf_path)) st st'
  | run_vision open_pdf pdf_path output_path dpi auto_format font_name font_size_pt
        path st st' :
      fitz E = Some open_pdf ->
      convert_pdf_to_docx_mac_vision E pdf_path output_path dpi cb auto_format
        font_name font_size_pt st = (Ok path, st') ->
      page_run E cb (length (open_pdf pdf_path dpi)) st st'.

(** ** White space and paragraphs *)

(** The white space a text starts with. *)
Fixpoint leading_spaces (s : str) : str :=
  match s with
  | c :: s' => if isspace c then c :: leading_spaces s' else []
  | [] => []
  end.

(** The pattern of the spacing repair applies at [c :: s]. *)
Definition cjk_gap (c : N) (s : str) : bool :=
  is_cjk c &&
  match leading_spaces s, lstrip s with
  | _ :: _, d :: _ => is_cjk d
  | _, _ => false
  end.

(** Words of one or more characters that are not white space, with one
    white space character between two words. *)
Inductive tidy : str -> Prop :=
  | tidy_last c : isspace c = false -> tidy [c]
  | tidy_char c s : isspace c = false -> tidy s -> tidy (c :: s)
  | tidy_gap c w s : isspace c = false -> isspace w = true -> tidy s -> tidy (c :: w :: s).

(** What the formatter promises of a paragraph, property by property. *)
Definition paragraph_ok (p : str) : Prop :=
  p <> [] /\
  (forall c, head p = Some c -> isspace c = false) /\
  (forall c, list.last p = Some c -> isspace c = false) /\
  (forall i a b, p !! i = Some a -> p !! S i = Some b ->
                 ~ (isspace a = true /\ isspace b = true)).

(** A text that starts and ends with a character that is not white space. *)
Definition trimmed (s : str) : Prop :=
  (exists c, head s = Some c /\ isspace c = false) /\
  (exists c, list.last s = Some c /\ isspace c = false).

(** The state of the merge loop: the paragraphs closed so far are tidy and
    the one under way is empty or tidy. *)
Definition merge_inv (st : list str * str) : Prop :=
  Forall tidy (fst st) /\ (snd st = [] \/ tidy (snd st)).

(** The paragraphs [_format_page_text] joins. *)
Definition paragraphs_of (text : str) : list str :=
  let '(merged, buf) := fold_left merge_step (nonblank_lines (strip text)) ([], []) in
  if truthy buf then merged ++ [buf] else merged.

(** ** Token removal *)

(** [content.replace(token, "")] for each token in turn. *)
Definition remove_all (tokens : list str) (content : str) : str :=
  fold_left (fun c token => replace c token []) tokens content.

(** The page as the specification orders it: the tokens are removed from
    the raw text first, the spacing is repaired after that. *)
Definition removal_first_page (tokens : list str) (auto_format : bool)
    (extracted : option str) : str :=
  match extracted with
  | Some content =>
      if truthy content then
        let content := remove_all tokens content in
        let content := _clean_chinese_spacing content in
        let content := if auto_format then _format_page_text content else content in
        strip content
      else []
  | None => []
  end.

(** ** Documents and conversions *)

(** A paragraph per page, and a page break after every page but the last. *)
Fixpoint page_blocks (page_texts : list str) : list block :=
  match page_texts with
  | [] => []
  | [text] => [Paragraph text]
  | text :: rest => Paragraph text :: PageBreak :: page_blocks rest
  end.

(** The blocks of a document, counted by kind. *)
Definition is_paragraph (b : block) : bool :=
  match b with Paragraph _ => true | PageBreak => false end.

Definition count_paragraphs (blocks : list block) : nat :=
  length (List.filter is_paragraph blocks).

Definition count_page_breaks (blocks : list block) : nat :=
  length (List.filter (fun b => negb (is_paragraph b)) blocks).

(** The document a conversion writes for the texts of its pages. *)
Definition document_of (font_name : str) (font_size_pt : Z) (page_texts : list str)
    : Document :=
  write_pages (_apply_default_font new_Document font_name font_size_pt) page_texts.

(** [_format_page_text] on every page, when formatting is on. *)
Definition formatted (auto_format : bool) (page_texts : list str) : list str :=
  if auto_format then map _format_page_text page_texts else page_texts.

(** The store once the directory is made, the pages are done and the
    document is saved. *)
Definition after_conversion (E : Env) (pages_done : Store) (output_path : str)
    (doc : Document) (st : Store) : Store :=
  mkStore (calls pages_done) (processed pages_done)
          (dirs st ++ [output_dir_of E output_path])
          (files st ++ [(docx_path output_path, doc)]).

(** A call of one of the three functions the package exports, with its
    arguments (and, for the OCR conversion, the order in which the workers
    complete). *)
Inductive request : Type :=
  | ByOcr (sched : list nat) (pdf_path output_path lang : str) (dpi : Z)
      (poppler_path : option str) (ocr_engine : str) (max_workers : option Z)
      (progress_callback : option Callable) (auto_format : bool)
      (font_name : str) (font_size_pt : Z)
  | ByTextLayer (pdf_path output_path : str) (remove_tokens : option (list str))
      (progress_callback : option Callable) (auto_format : bool)
      (font_name : str) (font_size_pt : Z)
  | ByVision (pdf_path output_path : str) (dpi : Z)
      (progress_callback : option Callable) (auto_format : bool)
      (font_name : str) (font_size_pt : Z).

Definition convert (E : Env) (r : request) : M str :=
  match r with
  | ByOcr sched pdf_path output_path lang dpi poppler_path ocr_engine max_workers
      cb auto_format font_name font_size_pt =>
      convert_pdf_to_docx E sched pdf_path output_path lang dpi poppler_path
        ocr_engine max_workers cb auto_format font_name font_size_pt
  | ByTextLayer pdf_path output_path remove_tokens cb auto_format font_name font_size_pt =>
      extract_pdf_text_to_docx E pdf_path output_path remove_tokens cb auto_format
        font_name font_size_pt
  | ByVision pdf_path output_path dpi cb auto_format font_name font_size_pt =>
      convert_pdf_to_docx_mac_vision E pdf_path output_path dpi cb auto_format
        font_name font_size_pt
  end.

Definition requested_path (r : request) : str :=
  match r with
  | ByOcr _ _ output_path _ _ _ _ _ _ _ _ _ => output_path
  | ByTextLayer _ output_path _ _ _ _ _ => output_path
  | ByVision _ output_path _ _ _ _ _ => output_path
  end.

Definition requested_font (r : request) : str * Z :=
  match r with
  | ByOcr _ _ _ _ _ _ _ _ _ _ font_name font_size_pt => (font_name, font_size_pt)
  | ByTextLayer _ _ _ _ _ font_name font_size_pt => (font_name, font_size_pt)
  | ByVision _ _ _ _ _ font_name font_size_pt => (font_name, font_size_pt)
  end.

(** The number of pages of the input: page images, pages of the text
    layer, or pages PyMuPDF opens. *)
Definition page_count (E : Env) (r : request) : nat :=
  match r with
  | ByOcr _ pdf_path _ _ dpi poppler_path _ _ _ _ _ _ =>
      length (convert_from_path E pdf_path dpi poppler_path)
  | ByTextLayer pdf_path _ _ _ _ _ _ => length (pdfplumber_pages E pdf_path)
  | ByVision pdf_path _ dpi _ _ _ _ =>
      match fitz E with
      | Some open_pdf => length (open_pdf pdf_path dpi)
      | None => 0
      end
  end.

(** [texts] are the texts of the pages of the input, in page order. *)
Definition page_texts_in_order (E : Env) (r : request) (texts : list str) : Prop :=
  match r with
  | ByOcr _ pdf_path _ lang dpi poppler_path ocr_engine _ _ auto_format _ _ =>
      exists raw_texts,
        recognised E lang ocr_engine (convert_from_path E pdf_path dpi poppler_path)
          raw_texts /\
        texts = formatted auto_format raw_texts
  | ByTextLayer pdf_path _ remove_tokens _ auto_format _ _ =>
      texts = map (text_layer_page remove_tokens auto_format) (pdfplumber_pages E pdf_path)
  | ByVision pdf_path _ dpi _ auto_format _ _ =>
      exists open_pdf recognize,
        fitz E = Some open_pdf /\ ocrmac E = Some recognize /\
        texts = formatted auto_format
                  (map (mac_page_text E recognize) (open_pdf pdf_path dpi))
  end.

(** [c] is the small letter [a] or its capital [b]. *)
Definition one_of (c a b : N) : bool := ((c =? a) || (c =? b))%N.

(** The path ends with a full stop and the letters d, o, c, x, each small
    or capital. *)
Definition ends_with_docx_any_case (p : str) : bool :=
  match rev p with
  | x :: c :: o :: d :: dot :: _ =>
      (dot =? 46)%N && one_of d 100 68 && one_of o 111 79 && one_of c 99 67
      && one_of x 120 88
  | _ => false
  end.

(** ** What the reconstruction keeps *)

(** The characters of a text that are not white space, in order. *)
Definition nonspace (s : str) : str :=
  List.filter (fun c => negb (isspace c)) s.

(** Somewhere in the text two ideographs have only white space between
    them. *)
Fixpoint has_gap (s : str) : bool :=
  match s with
  | c :: s' => cjk_gap c s' || has_gap s'
  | [] => false
  end.

(** Somewhere in the text three ideographs follow each other with white
    space between the first and the second and between the second and the
    third. *)
Fixpoint chained (s : str) : bool :=
  match s with
  | c :: s' =>
      (cjk_gap c s' && match lstrip s' with d :: r => cjk_gap d r | [] => false end)
      || chained s'
  | [] => false
  end.

(** The only white space in the text is the blank. *)
Definition blanks_only (s : str) : Prop :=
  Forall (fun c => isspace c = true -> c = 32%N) s.

(** The token occurs in the text. *)
Definition occurs (token s : str) : Prop :=
  exists a b, s = a ++ token ++ b.

(** ** The input of a conversion *)

Definition input_path (r : request) : str :=
  match r with
  | ByOcr _ pdf_path _ _ _ _ _ _ _ _ _ _ => pdf_path
  | ByTextLayer pdf_path _ _ _ _ _ _ => pdf_path
  | ByVision pdf_path _ _ _ _ _ _ => pdf_path
  end.

(** The optional imports the request needs are there: PyMuPDF and ocrmac
    for the Vision conversion. *)
Definition imports_ready (E : Env) (r : request) : Prop :=
  match r with
  | ByVision _ _ _ _ _ _ _ => is_Some (fitz E) /\ is_Some (ocrmac E)
  | _ => True
  end.

(** ** The table of PaddleOCR instances *)

Module PaddleCache.

Section Cache.

Variable E : Env.

(** An instance, as [ocr.ocr(image, cls=True)] uses it. *)
Definition instance : Type := Image E -> list (list (Box E * (str * Score E))).

(** The dictionary [_paddle_ocr_instances], and the languages the
    constructor [PaddleOCR] has been called with, oldest first. *)
Record Table : Type := mkTable {
  _paddle_ocr_instances : gmap.gmap str instance;
  built : list str
}.

(** [_get_paddle_ocr(lang)] on the table: a language that is not in the
    table is built and stored first, and the entry of the language is
    returned. *)
Definition _get_paddle_ocr (lang : str) (t : Table) : result instance * Table :=
  match PaddleOCR E with
  | None => (Raise (RuntimeError (u "未安装 PaddleOCR，请先安装 paddleocr 和 paddlepaddle 再使用 ocr_engine='paddle'")), t)
  | Some make =>
      match _paddle_ocr_instances t !! lang with
      | Some ocr => (Ok ocr, t)
      | None =>
          let ocr := make lang in
          (Ok ocr, mkTable (<[lang := ocr]> (_paddle_ocr_instances t)) (built t ++ [lang]))
      end
  end.

(** Calls of [_get_paddle_ocr] one after the other, for the languages of
    [langs] in turn. *)
Fixpoint get_all (langs : list str) (t : Table) : Table :=
  match langs with
  | [] => t
  | lang :: langs' => get_all langs' (snd (_get_paddle_ocr lang t))
  end.

(** Every instance in the table is the one the constructor gives for its
    language, and the table holds the languages built, each once. *)
Definition table_ok (t : Table) : Prop :=
  (forall lang ocr, _paddle_ocr_instances t !! lang = Some ocr ->
     exists make, PaddleOCR E = Some make /\ ocr = make lang) /\
  NoDup (built t) /\
  (forall lang, lang ∈ built t <-> is_Some (_paddle_ocr_instances t !! lang)).

Definition empty_table : Table := mkTable ∅ [].

End Cache.

End PaddleCache.

(** ** The progress bar of the command line *)

Module Main.

(** A [tqdm] bar: its total and the count it shows. *)
Record tqdm : Type := mk_tqdm {
  total : nat;
  n : nat
}.

(** [pbar.update(k)] *)
Definition update (bar : tqdm) (k : nat) : tqdm := mk_tqdm (total bar) (n bar + k).

(** The closure [progress_callback] of [main], on the variable [pbar] it
    shares with [main]. *)
Definition progress_callback (pbar : option tqdm) (current total : nat) : option tqdm :=
  let pbar :=
    match pbar with
    | None => mk_tqdm total 0
    | Some bar => bar
    end in
  Some (update pbar 1).

(** The bar after the calls of a log, starting from [pbar]. *)
Definition pbar_after (log : list (nat * nat)) (pbar : option tqdm) : option tqdm :=
  fold_left (fun pbar call => progress_callback pbar (fst call) (snd call)) log pbar.

End Main.

(** ** A world with PaddleOCR *)

(** PaddleOCR is installed; an instance reads one line on every image,
    the name of its language. *)
Definition sample_paddle_env : Env :=
  mkEnv N N unit unit (fun _ => true) (fun p => p) (fun p => p)
    (fun _ _ _ => []) (fun _ _ _ => [])
    (Some (fun lang _ => [[(tt, (lang, tt))]])) (fun _ => []) None None.

(** ** A small world to run the module in *)

(** Three scanned pages, numbered, whose recognised text is a capital
    letter followed by a blank; a text layer of three pages, the second
    unreadable and the third blank; PaddleOCR is not installed; PyMuPDF
    opens [empty.pdf] with no page and any other file with two. *)
Definition sample_env : Env :=
  mkEnv N N unit unit
    (fun _ => true)
    (fun p => u "/work/" ++ p)
    (fun _ => u "/work")
    (fun _ _ _ => [1; 2; 3]%N)
    (fun img _ _ => [65 + img; 32]%N)
    None
    (fun _ => [Some (u "页 眉 正文"); None; Some []])
    (Some (fun p _ => if str_eqb p (u "empty.pdf") then [] else [7; 8]%N))
    (Some (fun pix => [([48 + pix]%N, tt, tt); (u "二", tt, tt)])).

Definition empty_store : Store := mkStore [] 0 [] [].

Definition sample_text_request : request :=
  ByTextLayer (u "in.pdf") (u "out.DOCX") (Some [u "页 眉"]) (Some tt) true (u "SimSun") 12.

(** * Properties *)

(** ** Two texts from the documentation *)

Example clean_pair :
  _clean_chinese_spacing (u "人 设") = u "人设".
Proof. vm_compute. reflexivity. Qed.

Example format_three_lines :
  _format_page_text (u "第一行
第二行。
第三行") = u "第一行 第二行。

第三行".
Proof. vm_compute. reflexivity. Qed.

(** ** Lists and loops *)

Lemma enumerate_length {A} (l : list A) start : length (enumerate start l) = length l.
Proof. revert start. induction l as [|x l IH]; intros start; simpl; [done|]. by rewrite IH. Qed.

Lemma enumerate_lookup {A} (l : list A) start i :
  enumerate start l !! i = (fun x => (start + i, x)) <$> l !! i.
Proof.
  revert start i. induction l as [|x l IH]; intros start [|i]; simpl; try done.
  - by rewrite Nat.add_0_r.
  - rewrite IH. by replace (S start + i) with (start + S i) by lia.
Qed.

Lemma enumerate_app {A} (l k : list A) start :
  enumerate start (l ++ k) = enumerate start l ++ enumerate (start + length l) k.
Proof.
  revert start. induction l as [|x l IH]; intros start; simpl.
  - by rewrite Nat.add_0_r.
  - rewrite IH. by replace (S start + length l) with (start + S (length l)) by lia.
Qed.

Lemma or_empty_Some (s : str) : or_empty (Some s) = s.
Proof.
  unfold or_empty, truthy, str_eqb. case_bool_decide; simpl; congruence.
Qed.

(** Writing the results of the tasks [k], [k+1], ... into their slots. *)
Lemma fill_slots (texts : list str) : forall k (res : list (option str)),
  k + length texts <= length res ->
  fold_left (fun res '(idx, text) => <[idx := Some text]> res) (enumerate k texts) res
  = take k res ++ map Some texts ++ drop (k + length texts) res.
Proof.
  induction texts as [|t texts IH]; intros k res Hlen; simpl in *.
  - by rewrite Nat.add_0_r, take_drop.
  - rewrite IH by (rewrite length_insert; lia).
    assert (Hk : k < length res) by lia.
    rewrite (take_S_r _ _ (Some t)) by (apply list_lookup_insert_eq; done).
    rewrite take_insert_ge by lia.
    rewrite drop_insert_lt by lia.
    rewrite <- app_assoc. simpl. by rewrite Nat.add_succ_r.
Qed.

(** ** The pool drains every task once, whatever the schedule *)

(** Three tasks that each leave their index behind: the marks are left in
    the order of the schedule, the results sit at the indices of
    submission. *)
Example pool_follows_schedule :
  executor_map [2; 0; 1] (fun i => makedirs [N.of_nat i] ;;; ret (10 * i)) [0; 1; 2]
    empty_store
  = (Ok [0; 10; 20], mkStore [] 0 [[2%N]; [0%N]; [1%N]] []).
Proof. vm_compute. reflexivity. Qed.

Section Pool.

Context {A B : Type}.
Variable f : A -> M B.
Variable out : A -> result B.
Variable eff : A -> Store -> Store.
Hypothesis f_splits : forall a st, f a st = (out a, eff a st).
Variable items : list A.

Lemma run_tasks_spec (sched : list nat) : forall futs st,
  futures_ok out items futs ->
  exists ran futs',
    run_tasks f items sched futs st = (futs', fold_left (task_effect eff items) ran st) /\
    futures_ok out items futs' /\
    NoDup ran /\
    (forall i, i ∈ ran <-> futs !! i = Some None /\ i ∈ sched) /\
    (forall i, futs' !! i = Some None <-> futs !! i = Some None /\ i ∉ sched).
Proof.
  induction sched as [|i sched IH]; intros futs st Hok; simpl.
  - exists [], futs. split_and!; try done.
    + constructor.
    + intros i. rewrite elem_of_nil. naive_solver.
    + intros i. rewrite elem_of_nil. naive_solver.
  - destruct (futs !! i) as [[r|]|] eqn:Hi.
    + destruct (IH futs st Hok) as (ran & futs' & Hrun & Hok' & Hnd & Hran & Hpend).
      exists ran, futs'. split_and!; try done.
      * intros j. rewrite Hran, elem_of_cons. split; [naive_solver|].
        intros [Hj [->|Hin]]; [congruence|done].
      * intros j. rewrite Hpend, not_elem_of_cons. split; [|naive_solver].
        intros [Hj Hin]. split_and!; try done. intros ->. congruence.
    + destruct Hok as [Hlen Hdone].
      destruct (items !! i) as [a|] eqn:Ha; cycle 1.
      { apply lookup_ge_None in Ha. apply lookup_lt_Some in Hi. lia. }
      rewrite f_splits.
      assert (Hok1 : futures_ok out items (<[i := Some (out a)]> futs)).
      { split; [by rewrite length_insert|].
        intros j r Hj. destruct (decide (i = j)) as [->|Hne].
        - rewrite list_lookup_insert_eq in Hj by (by eapply lookup_lt_Some).
          exists a. split; [done|congruence].
        - rewrite list_lookup_insert_ne in Hj by done. eauto. }
      destruct (IH (<[i := Some (out a)]> futs) (eff a st) Hok1)
        as (ran & futs' & Hrun & Hok' & Hnd & Hran & Hpend).
      exists (i :: ran), futs'. split_and!; try done.
      * rewrite Hrun. simpl. do 2 f_equal. unfold task_effect. by rewrite Ha.
      * constructor; [|done]. rewrite Hran.
        rewrite list_lookup_insert_eq by (by eapply lookup_lt_Some). naive_solver.
      * intros j. rewrite !elem_of_cons, Hran.
        destruct (decide (j = i)) as [->|Hne]; [naive_solver|].
        rewrite list_lookup_insert_ne by done. naive_solver.
      * intros j. rewrite Hpend, not_elem_of_cons.
        destruct (decide (j = i)) as [->|Hne].
        -- rewrite list_lookup_insert_eq by (by eapply lookup_lt_Some). naive_solver.
        -- rewrite list_lookup_insert_ne by done. naive_solver.
    + destruct (IH futs st Hok) as (ran & futs' & Hrun & Hok' & Hnd & Hran & Hpend).
      exists ran, futs'. split_and!; try done.
      * intros j. rewrite Hran, elem_of_cons. split; [naive_solver|].
        intros [Hj [->|Hin]]; [congruence|done].
      * intros j. rewrite Hpend, not_elem_of_cons. split; [|naive_solver].
        intros [Hj Hin]. split_and!; try done. intros ->. congruence.
Qed.

(** Drained, the pool holds the outcome of every task at its index, and
    its effects are those of the tasks, each once, in some order. *)
Lemma executor_map_spec (sched : list nat) (st : Store) :
  exists ran,
    ran ≡ₚ seq 0 (length items) /\
    executor_map sched f items st
    = (collect (map (fun a => Some (out a)) items), fold_left (task_effect eff items) ran st).
Proof.
  unfold executor_map.
  assert (Hok : futures_ok out items (replicate (length items) None)).
  { split; [by rewrite length_replicate|].
    intros i r Hi. apply lookup_replicate in Hi. naive_solver. }
  destruct (run_tasks_spec (sched ++ seq 0 (length items)) _ st Hok)
    as (ran & futs' & Hrun & [Hlen Hdone] & Hnd & Hran & Hpend).
  exists ran. rewrite Hrun. split.
  - apply NoDup_Permutation; [done|apply NoDup_seq|].
    intros i. rewrite Hran, elem_of_seq, elem_of_app, elem_of_seq.
    split.
    + intros [Hi _]. apply lookup_replicate in Hi. lia.
    + intros Hi. split; [|right; lia]. apply lookup_replicate_2. lia.
  - f_equal. f_equal. apply list_eq. intros i.
    rewrite list_lookup_fmap.
    destruct (items !! i) as [a|] eqn:Ha; simpl.
    + assert (Hi : i < length futs') by (rewrite Hlen; by eapply lookup_lt_Some).
      destruct (lookup_lt_is_Some_2 _ _ Hi) as [[r|] Hr].
      * destruct (Hdone _ _ Hr) as (a' & Ha' & ->). congruence.
      * apply Hpend in Hr as [_ Hnot]. exfalso. apply Hnot.
        rewrite elem_of_app, elem_of_seq. right.
        apply lookup_lt_Some in Ha. lia.
    + apply lookup_ge_None. rewrite Hlen. by apply lookup_ge_None.
Qed.

Lemma collect_Ok (g : A -> B) (l : list A) :
  (forall a, a ∈ l -> out a = Ok (g a)) ->
  collect (map (fun a => Some (out a)) l) = Ok (map g l).
Proof.
  induction l as [|a l IH]; intros Hall; simpl; [done|].
  rewrite (Hall a) by (apply elem_of_cons; by left). rewrite IH; [done|].
  intros b Hb. apply Hall. apply elem_of_cons. by right.
Qed.

Lemma collect_Ok_inv (l : list A) (bs : list B) :
  collect (map (fun a => Some (out a)) l) = Ok bs ->
  Forall2 (fun a b => out a = Ok b) l bs.
Proof.
  revert bs. induction l as [|a l IH]; intros bs; simpl.
  - intros [= <-]. constructor.
  - destruct (out a) as [b|e] eqn:Ha; [|done].
    destruct (collect _) as [bs'|e]; [|done].
    intros [= <-]. constructor; [done|]. by apply IH.
Qed.

End Pool.

(** ** The progress counter *)

Lemma progress_steps cb total n : forall st,
  Nat.iter n (progress_step cb total) st =
  match cb with
  | Some _ => mkStore (calls st ++ count_up total (processed st) n) (processed st + n)
                      (dirs st) (files st)
  | None => st
  end.
Proof.
  induction n as [|n IH]; intros st.
  - simpl. destruct cb; [|done]. destruct st; simpl.
    by rewrite app_nil_r, Nat.add_0_r.
  - rewrite Nat.iter_succ_r, IH. destruct cb; [|done]. simpl.
    unfold count_up. simpl. rewrite <- app_assoc. simpl.
    replace (processed st + 1) with (S (processed st)) by lia.
    by replace (S (processed st) + n) with (processed st + S n) by lia.
Qed.

Lemma progress_report_count_up N : progress_report N ((0, N) :: count_up N 0 N).
Proof.
  assert (Heq : (0, N) :: count_up N 0 N = map (fun j => (j, N)) (seq 0 (S N))) by done.
  rewrite Heq. split_and!.
  - done.
  - by rewrite length_map, length_seq.
  - intros i c d. rewrite <- list_fmap_compose, !list_lookup_fmap.
    destruct (seq 0 (S N) !! i) as [a|] eqn:Ha; [|done].
    destruct (seq 0 (S N) !! S i) as [b|] eqn:Hb; [|done].
    apply lookup_seq in Ha, Hb. simpl. intros [= <-] [= <-]. lia.
  - apply Forall_forall. intros call Hin. apply list_elem_of_In in Hin.
    apply list_elem_of_fmap in Hin as (j & -> & _). done.
  - rewrite seq_S, map_app. simpl. by rewrite last_snoc.
Qed.

(** ** The parallel page processor *)

Section Recognition.

Variable E : Env.
Variables (lang ocr_engine : str) (cb : option Callable) (total : nat).

Lemma worker_splits item st :
  worker E lang ocr_engine cb total item st
  = (outcome E lang ocr_engine item, worker_effect E lang ocr_engine cb total item st).
Proof.
  destruct item as [idx img]. unfold worker, outcome, worker_effect. simpl.
  destruct (recognise E ocr_engine lang img) as [text|e]; [|done].
  destruct cb; done.
Qed.

Lemma outcomes_recognised images : forall k rs,
  Forall2 (fun item r => outcome E lang ocr_engine item = Ok r) (enumerate k images) rs ->
  exists texts, rs = enumerate k texts /\ recognised E lang ocr_engine images texts.
Proof.
  induction images as [|img images IH]; intros k rs Hall; simpl in *.
  - inversion Hall. exists []. split; [done|constructor].
  - inversion Hall as [|item r items rs' Hr Hrest]; subst.
    destruct (IH _ _ Hrest) as (texts & -> & Hrec).
    unfold outcome in Hr. simpl in Hr.
    destruct (recognise E ocr_engine lang img) as [text|e] eqn:Himg; [|done].
    injection Hr as <-. exists (text :: texts). split; [done|].
    by constructor.
Qed.

Lemma collect_recognised images texts :
  recognised E lang ocr_engine images texts ->
  forall k,
    collect (map (fun item => Some (outcome E lang ocr_engine item)) (enumerate k images))
    = Ok (enumerate k texts).
Proof.
  induction 1 as [|img text images texts Himg Hrec IH]; intros k; simpl; [done|].
  unfold outcome at 1. simpl. by rewrite Himg, IH.
Qed.

Lemma recognised_effect images texts :
  recognised E lang ocr_engine images texts ->
  forall k item, item ∈ enumerate k images ->
    worker_effect E lang ocr_engine cb total item = progress_step cb total.
Proof.
  induction 1 as [|img text images texts Himg Hrec IH]; intros k item Hin; simpl in *.
  - by apply elem_of_nil in Hin.
  - apply elem_of_cons in Hin as [->|Hin]; [|by eapply IH].
    unfold worker_effect. simpl. by rewrite Himg.
Qed.

(** When every page is recognised, the tasks leave one progress step each. *)
Lemma recognised_effects images texts (ran : list nat) st :
  recognised E lang ocr_engine images texts ->
  ran ≡ₚ seq 0 (length (enumerate 0 images)) ->
  fold_left (task_effect (worker_effect E lang ocr_engine cb total) (enumerate 0 images))
            ran st
  = Nat.iter (length images) (progress_step cb total) st.
Proof.
  intros Hrec Hperm.
  assert (Hlen : length ran = length images).
  { by rewrite Hperm, length_seq, enumerate_length. }
  rewrite <- Hlen. clear Hlen.
  assert (Hin : Forall (fun i => i < length (enumerate 0 images)) ran).
  { apply Forall_forall. intros i Hi. apply list_elem_of_In in Hi.
    rewrite Hperm in Hi. apply elem_of_seq in Hi. lia. }
  clear Hperm. revert st.
  induction Hin as [|i ran Hi _ IH]; intros st; [done|].
  cbn [fold_left length]. rewrite IH, Nat.iter_succ_r. f_equal.
  unfold task_effect.
  destruct (lookup_lt_is_Some_2 _ _ Hi) as [item Hitem]. rewrite Hitem.
  erewrite recognised_effect; [done..|]. by eapply list_elem_of_lookup_2.
Qed.

End Recognition.

Lemma notify_run cb current total st :
  notify cb current total st =
  (Ok tt, match cb with
          | Some _ => mkStore (calls st ++ [(current, total)]) (processed st)
                              (dirs st) (files st)
          | None => st
          end).
Proof. by destruct cb. Qed.

Lemma ocr_pages_run E sched images lang ocr_engine max_workers cb st texts :
  workers_ok max_workers ->
  recognised E lang ocr_engine images texts ->
  _ocr_pages_in_parallel E sched images lang ocr_engine max_workers cb st
  = (Ok texts, after_pages cb (length images) st).
Proof.
  intros Hw Hrec. unfold _ocr_pages_in_parallel, bind. simpl.
  assert (Hpool : forall st1,
    ThreadPoolExecutor max_workers st1 = (Ok tt, st1)).
  { intros st1. destruct max_workers as [w|]; simpl in *; [|done].
    destruct (w <=? 0)%Z eqn:Hle; [lia|done]. }
  rewrite notify_run, Hpool.
  destruct (executor_map_spec _ _ _
              (worker_splits E lang ocr_engine cb (length images))
              (enumerate 0 images) sched
              (match cb with
               | Some _ => mkStore (calls st ++ [(0, length images)]) 0 (dirs st) (files st)
               | None => mkStore (calls st) 0 (dirs st) (files st)
               end)) as (ran & Hperm & Hmap).
  simpl in Hmap |- *. rewrite Hmap. clear Hmap.
  rewrite (collect_recognised _ _ _ _ _ Hrec).
  rewrite (recognised_effects _ _ _ _ _ _ _ _ _ Hrec Hperm), progress_steps.
  assert (Hlen : length texts = length images) by (symmetry; by eapply Forall2_length).
  rewrite fill_slots by (rewrite length_replicate; simpl; lia).
  simpl. rewrite Hlen, drop_ge, app_nil_r by (rewrite length_replicate; lia).
  rewrite map_map. unfold ret. f_equal.
  - f_equal. rewrite <- (map_id texts) at 2. apply map_ext. intros t. apply or_empty_Some.
  - unfold after_pages. destruct cb; simpl; [|done].
    by rewrite <- app_assoc.
Qed.

(** A run that returns has recognised every page, and returns those texts. *)
Lemma ocr_pages_Ok_inv E sched images lang ocr_engine max_workers cb st texts st' :
  _ocr_pages_in_parallel E sched images lang ocr_engine max_workers cb st = (Ok texts, st') ->
  recognised E lang ocr_engine images texts /\
  st' = after_pages cb (length images) st.
Proof.
  intros Hrun.
  assert (Hw : workers_ok max_workers).
  { destruct max_workers as [w|]; simpl; [|done].
    destruct (decide (1 <= w)%Z) as [|Hw]; [done|]. exfalso.
    revert Hrun. unfold _ocr_pages_in_parallel, bind. simpl.
    destruct (notify cb 0 (length images) _) as [[[]|e] st1]; [|done].
    destruct (w <=? 0)%Z eqn:Hle; [done|lia]. }
  assert (Hrec : exists ts, recognised E lang ocr_engine images ts).
  { revert Hrun. unfold _ocr_pages_in_parallel, bind. simpl.
    destruct (notify cb 0 (length images) _) as [[[]|e] st1]; [|done].
    destruct (ThreadPoolExecutor max_workers st1) as [[[]|e] st2]; [|done].
    destruct (executor_map_spec _ _ _
                (worker_splits E lang ocr_engine cb (length images))
                (enumerate 0 images) sched st2) as (ran & Hperm & ->).
    destruct (collect _) as [rs|e] eqn:Hrs; [|done]. intros _.
    apply collect_Ok_inv in Hrs.
    apply outcomes_recognised in Hrs as (ts & _ & Hts). eauto. }
  destruct Hrec as [ts Hts].
  rewrite (ocr_pages_run _ _ _ _ _ _ _ _ _ Hw Hts) in Hrun.
  by simplify_eq.
Qed.

(** ** The two substitutions, as equations *)

Lemma sub_scan_skip p repl (m rest : str) :
  Re.sub_scan p repl (length m) (m ++ rest) = Re.sub_scan p repl 0 rest.
Proof. induction m as [|c m IH]; simpl; [by destruct rest|done]. Qed.

Lemma sub_nil p repl : Re.sub p repl [] = [].
Proof. done. Qed.

Lemma sub_no_match p repl c (s : str) :
  Re.match_here p (c :: s) = None ->
  Re.sub p repl (c :: s) = c :: Re.sub p repl s.
Proof. unfold Re.sub. simpl. by intros ->. Qed.

Lemma sub_match p repl c (s m rest : str) gs :
  Re.match_here p (c :: s) = Some gs ->
  concat gs = c :: m -> s = m ++ rest ->
  Re.sub p repl (c :: s) = repl gs ++ Re.sub p repl rest.
Proof.
  unfold Re.sub. simpl. intros -> -> ->. simpl. by rewrite sub_scan_skip.
Qed.

Lemma match_many1_nil cls p : Re.match_here (Re.Many1 cls :: p) [] = None.
Proof. done. Qed.

Lemma match_many1_cons cls p c (s : str) :
  Re.match_here (Re.Many1 cls :: p) (c :: s) =
  if cls c then
    match Re.match_here (Re.Many1 cls :: p) s with
    | Some (g :: gs) => Some ((c :: g) :: gs)
    | _ => (fun gs => [c] :: gs) <$> Re.match_here p s
    end
  else None.
Proof. done. Qed.

Lemma leading_spaces_lstrip s : s = leading_spaces s ++ lstrip s.
Proof. induction s as [|c s IH]; simpl; [done|]. destruct (isspace c); simpl; congruence. Qed.

Lemma is_cjk_not_space c : is_cjk c = true -> isspace c = false.
Proof.
  unfold is_cjk, isspace. intros H.
  apply andb_true_iff in H as [H1 H2].
  apply N.leb_le in H1, H2.
  repeat (apply orb_false_iff; split);
    try (apply andb_false_iff; right; apply N.leb_gt; lia);
    try (apply N.eqb_neq; lia).
Qed.

(** [\s+] matches the white space the text starts with, all of it. *)
Lemma match_spaces s :
  Re.match_here [Re.Many1 isspace] s =
  match leading_spaces s with
  | [] => None
  | g => Some [g]
  end.
Proof.
  induction s as [|c s IH]; [done|].
  rewrite match_many1_cons, IH. simpl.
  destruct (isspace c); [|done].
  by destruct (leading_spaces s).
Qed.

(** [\s+([一-龥])] matches when an ideograph follows the white space. *)
Lemma match_spaces_cjk s :
  Re.match_here [Re.Many1 isspace; Re.One is_cjk] s =
  match leading_spaces s, lstrip s with
  | (_ :: _) as g, d :: _ => if is_cjk d then Some [g; [d]] else None
  | _, _ => None
  end.
Proof.
  induction s as [|c s IH]; [done|].
  rewrite match_many1_cons, IH. simpl.
  destruct (isspace c) eqn:Hc; [|done].
  destruct (leading_spaces s) as [|w g] eqn:Hg.
  - destruct s as [|d s]; [done|]. simpl in *.
    destruct (isspace d) eqn:Hd; [done|].
    by destruct (is_cjk d).
  - destruct (lstrip s) as [|d r] eqn:Hr.
    + destruct s as [|e s]; [done|]. simpl in *.
      destruct (isspace e) eqn:He; [|done].
      destruct (is_cjk e) eqn:Hcjk; [|done].
      apply is_cjk_not_space in Hcjk. congruence.
    + destruct (is_cjk d); [done|].
      destruct s as [|e s]; [done|]. simpl in *.
      destruct (isspace e) eqn:He; [|done].
      destruct (is_cjk e) eqn:Hcjk; [|done].
      apply is_cjk_not_space in Hcjk. congruence.
Qed.

Lemma collapse_nil : collapse_spaces [] = [].
Proof. done. Qed.

Lemma collapse_char c s :
  isspace c = false -> collapse_spaces (c :: s) = c :: collapse_spaces s.
Proof.
  intros Hc. apply sub_no_match. rewrite match_spaces. simpl. by rewrite Hc.
Qed.

Lemma collapse_space c s :
  isspace c = true -> collapse_spaces (c :: s) = 32%N :: collapse_spaces (lstrip s).
Proof.
  intros Hc. unfold collapse_spaces.
  erewrite sub_match with (m := leading_spaces s) (rest := lstrip s); [done| | |].
  - rewrite match_spaces. simpl. rewrite Hc. done.
  - simpl. by rewrite app_nil_r.
  - apply leading_spaces_lstrip.
Qed.

Lemma clean_nil : _clean_chinese_spacing [] = [].
Proof. done. Qed.

Lemma clean_no_gap c s :
  cjk_gap c s = false ->
  _clean_chinese_spacing (c :: s) = c :: _clean_chinese_spacing s.
Proof.
  intros Hgap. apply sub_no_match.
  change (Re.match_here _ (c :: s)) with
    (if is_cjk c
     then (fun gs => [c] :: gs) <$> Re.match_here [Re.Many1 isspace; Re.One is_cjk] s
     else None).
  rewrite match_spaces_cjk. unfold cjk_gap in Hgap.
  destruct (is_cjk c); [|done]. simpl in Hgap.
  destruct (leading_spaces s); [done|].
  destruct (lstrip s) as [|d r]; [done|]. by rewrite Hgap.
Qed.

Lemma clean_gap c s :
  cjk_gap c s = true ->
  exists d rest, lstrip s = d :: rest /\ is_cjk d = true /\
    _clean_chinese_spacing (c :: s) = c :: d :: _clean_chinese_spacing rest.
Proof.
  intros Hgap. unfold cjk_gap in Hgap.
  apply andb_true_iff in Hgap as [Hc Hgap].
  destruct (leading_spaces s) as [|w g] eqn:Hg; [done|].
  destruct (lstrip s) as [|d rest] eqn:Hr; [done|].
  exists d, rest. split_and!; [done..|].
  unfold _clean_chinese_spacing.
  erewrite sub_match with (m := (w :: g) ++ [d]) (rest := rest)
                          (gs := [[c]; w :: g; [d]]); [done| |done|].
  - change (Re.match_here _ (c :: s)) with
      (if is_cjk c
       then (fun gs => [c] :: gs) <$> Re.match_here [Re.Many1 isspace; Re.One is_cjk] s
       else None).
    rewrite match_spaces_cjk, Hc, Hg, Hr, Hgap. done.
  - rewrite <- app_assoc. change ([d] ++ rest) with (d :: rest).
    rewrite <- Hg, <- Hr. apply leading_spaces_lstrip.
Qed.

(** ** The shape of a formatted paragraph *)

Lemma tidy_head s : tidy s -> exists c, head s = Some c /\ isspace c = false.
Proof. destruct 1; simpl; eauto. Qed.

Lemma tidy_paragraph_ok s : tidy s -> paragraph_ok s.
Proof.
  induction 1 as [c Hc|c s Hc Hs IH|c w s Hc Hw Hs IH].
  - split_and!; [done|..].
    + intros d [= <-]. done.
    + intros d [= <-]. done.
    + intros [|i] a b Ha Hb; done.
  - destruct IH as (Hne & Hhd & Hlast & Hadj). split_and!; [done|..].
    + intros d [= <-]. done.
    + destruct s as [|e s]; [done|]. by rewrite last_cons_cons.
    + intros [|i] a b Ha Hb; simpl in *.
      * injection Ha as <-. intros [? _]. congruence.
      * eauto.
  - destruct IH as (Hne & Hhd & Hlast & Hadj). split_and!; [done|..].
    + intros d [= <-]. done.
    + destruct s as [|e s]; [done|]. by rewrite !last_cons_cons.
    + intros [|[|i]] a b Ha Hb; simpl in *.
      * injection Ha as <-. intros [? _]. congruence.
      * injection Ha as <-. intros [_ Hb']. destruct s as [|e s]; [done|].
        simpl in Hb. injection Hb as <-.
        assert (isspace e = false) by (by apply Hhd). congruence.
      * eauto.
Qed.

Lemma tidy_join a b w : tidy a -> isspace w = true -> tidy b -> tidy (a ++ [w] ++ b).
Proof.
  intros Ha Hw Hb. induction Ha; simpl.
  - by apply tidy_gap.
  - by apply tidy_char.
  - by apply tidy_gap.
Qed.

Lemma lstrip_length s : length (lstrip s) <= length s.
Proof. induction s as [|c s IH]; simpl; [done|]. destruct (isspace c); simpl; lia. Qed.

Lemma lstrip_head s c : head (lstrip s) = Some c -> isspace c = false.
Proof.
  induction s as [|d s IH]; simpl; [done|].
  destruct (isspace d) eqn:Hd; [done|]. simpl. congruence.
Qed.

Lemma lstrip_last s c :
  list.last s = Some c -> isspace c = false -> list.last (lstrip s) = Some c.
Proof.
  induction s as [|a [|b s] IH]; intros Hlast Hc; [done|..].
  - simpl in *. injection Hlast as ->. by rewrite Hc.
  - rewrite last_cons_cons in Hlast. change (lstrip (a :: b :: s)) with
      (if isspace a then lstrip (b :: s) else a :: b :: s).
    destruct (isspace a); [by apply IH|]. by rewrite last_cons_cons.
Qed.

Lemma collapse_tidy n : forall s, length s <= n -> trimmed s -> tidy (collapse_spaces s).
Proof.
  induction n as [|n IH]; intros s Hn [(c & Hhd & Hc) (z & Hlast & Hz)].
  { destruct s; simpl in *; [done|lia]. }
  destruct s as [|c' s]; [done|]. simpl in Hhd. injection Hhd as ->.
  rewrite collapse_char by done.
  destruct s as [|d s]; [by apply tidy_last|].
  rewrite last_cons_cons in Hlast.
  destruct (isspace d) eqn:Hd.
  - rewrite collapse_space by done. apply tidy_gap; [done..|].
    assert (Hlast' : list.last (lstrip s) = Some z).
    { apply lstrip_last; [|done]. destruct s as [|e s].
      - simpl in Hlast. congruence.
      - by rewrite last_cons_cons in Hlast. }
    apply IH.
    + pose proof (lstrip_length s). simpl in Hn. lia.
    + split; [|eauto]. destruct (lstrip s) as [|e r] eqn:Hr; [done|].
      exists e. split; [done|]. apply (lstrip_head s). by rewrite Hr.
  - apply tidy_char; [done|]. apply IH; [simpl in *; lia|].
    split; simpl; eauto.
Qed.

Lemma clean_head s : head (_clean_chinese_spacing s) = head s.
Proof.
  destruct s as [|c s]; [done|].
  destruct (cjk_gap c s) eqn:Hgap.
  - destruct (clean_gap _ _ Hgap) as (d & rest & _ & _ & ->). done.
  - by rewrite clean_no_gap.
Qed.

Lemma clean_last n : forall s, length s <= n ->
  list.last (_clean_chinese_spacing s) = list.last s.
Proof.
  induction n as [|n IH]; intros s Hn.
  { destruct s; simpl in *; [done|lia]. }
  destruct s as [|c s]; [done|]. simpl in Hn.
  assert (Hsame : forall (x : N) (l l' : str), list.last l = list.last l' ->
            list.last (x :: l) = list.last (x :: l')).
  { intros x [|a l] [|a' l'] Heq; try done.
    - simpl in Heq. symmetry in Heq. by apply last_None in Heq.
    - by apply last_None in Heq. }
  destruct (cjk_gap c s) eqn:Hgap.
  - destruct (clean_gap _ _ Hgap) as (d & rest & Hr & _ & ->).
    pose proof (leading_spaces_lstrip s) as Hs. rewrite Hr in Hs.
    pose proof (lstrip_length s) as Hlen. rewrite Hr in Hlen. simpl in Hlen.
    rewrite last_cons_cons.
    transitivity (list.last (d :: rest)).
    + apply Hsame, IH. lia.
    + rewrite Hs at 1.
      change (c :: leading_spaces s ++ d :: rest)
        with ((c :: leading_spaces s) ++ d :: rest).
      by rewrite last_app_cons.
  - rewrite clean_no_gap by done. apply Hsame, IH. lia.
Qed.

Lemma clean_trimmed s : trimmed s -> trimmed (_clean_chinese_spacing s).
Proof.
  intros [Hhd Hlast]. split.
  - by rewrite clean_head.
  - by rewrite (clean_last (length s)).
Qed.

Lemma last_rev (l : str) : list.last (rev l) = head l.
Proof. destruct l as [|a l]; [done|]. simpl. by rewrite last_snoc. Qed.

Lemma rstrip_prefix s : exists t, s = rstrip s ++ t.
Proof.
  exists (rev (leading_spaces (rev s))). unfold rstrip.
  rewrite <- rev_app_distr, <- leading_spaces_lstrip. by rewrite rev_involutive.
Qed.

Lemma strip_trimmed s : strip s <> [] -> trimmed (strip s).
Proof.
  intros Hne. split.
  - destruct (rstrip_prefix (lstrip s)) as [t Ht]. fold (strip s) in Ht.
    destruct (strip s) as [|c r] eqn:Hs; [done|].
    exists c. split; [done|]. apply (lstrip_head s). by rewrite Ht.
  - unfold strip, rstrip in *. rewrite last_rev.
    destruct (lstrip (rev (lstrip s))) as [|c r] eqn:Hr; [done|].
    exists c. split; [done|]. apply (lstrip_head (rev (lstrip s))). by rewrite Hr.
Qed.

Lemma nonblank_lines_trimmed text : Forall trimmed (nonblank_lines text).
Proof.
  apply Forall_forall. intros ln Hin. apply list_elem_of_In in Hin.
  unfold nonblank_lines in Hin.
  apply list_elem_of_In, in_map_iff in Hin as (raw & <- & Hraw).
  apply list_elem_of_In, list_elem_of_filter in Hraw as [Hne _].
  by apply strip_trimmed.
Qed.

(** ** The merge loop keeps its paragraphs tidy *)

Lemma truthy_false s : truthy s = false <-> s = [].
Proof. unfold truthy, str_eqb. case_bool_decide; simpl; naive_solver. Qed.

Lemma merge_step_inv st ln : merge_inv st -> trimmed ln -> merge_inv (merge_step st ln).
Proof.
  destruct st as [merged buf]. intros [Hmerged Hbuf] Hln. cbn [fst snd] in *.
  assert (Hnew : tidy (collapse_spaces (_clean_chinese_spacing ln))).
  { eapply collapse_tidy; [done|]. by apply clean_trimmed. }
  unfold merge_step.
  destruct (truthy buf) eqn:Htruthy; cbn [negb].
  - destruct Hbuf as [->|Hbuf]; [by vm_compute in Htruthy|].
    destruct (endswith_any buf end_punct).
    + split; cbn [fst snd]; [|by right]. apply Forall_app. split; [done|]. by constructor.
    + split; cbn [fst snd]; [done|]. right. by apply tidy_join.
  - split; cbn [fst snd]; [done|]. by right.
Qed.

Lemma merge_loop_inv lines : forall st,
  Forall trimmed lines -> merge_inv st -> merge_inv (fold_left merge_step lines st).
Proof.
  induction lines as [|ln lines IH]; intros st Hlines Hst; simpl; [done|].
  inversion Hlines; subst. apply IH; [done|]. by apply merge_step_inv.
Qed.

Lemma format_page_text_join text :
  _format_page_text text =
  if truthy (strip text) then join [10; 10]%N (paragraphs_of text) else [].
Proof.
  unfold _format_page_text, paragraphs_of.
  destruct (truthy (strip text)); simpl; [|done].
  by destruct (fold_left _ _ _).
Qed.

Lemma paragraphs_tidy text : Forall tidy (paragraphs_of text).
Proof.
  unfold paragraphs_of.
  pose proof (merge_loop_inv (nonblank_lines (strip text)) ([], [])
                (nonblank_lines_trimmed _)) as Hinv.
  destruct (fold_left _ _ _) as [merged buf].
  destruct Hinv as [Hmerged Hbuf]; [split; simpl; [constructor|by left]|].
  simpl in *. destruct (truthy buf) eqn:Hb; [|done].
  apply Forall_app. split; [done|].
  destruct Hbuf as [->|Hbuf]; [done|]. by constructor.
Qed.

(** C9. For every text, [_format_page_text] returns the empty string or
    the paragraphs of a non-empty list joined by two line feeds, and each
    of these paragraphs is non-empty, neither starts nor ends with white
    space, and has no two white space characters next to each other. *)
Theorem format_page_text_paragraphs (text : str) :
  _format_page_text text = [] \/
  exists paras, paras <> [] /\
    _format_page_text text = join [10; 10]%N paras /\
    Forall paragraph_ok paras.
Proof.
  rewrite format_page_text_join.
  destruct (truthy (strip text)); [|by left].
  pose proof (paragraphs_tidy text) as Htidy.
  destruct (paragraphs_of text) as [|p paras]; [by left|].
  right. exists (p :: paras). split_and!; [done..|].
  eapply List.Forall_impl; [apply tidy_paragraph_ok|exact Htidy].
Qed.

(** ** The loops that take the pages one by one *)

Lemma page_steps cb total n : forall st,
  Nat.iter n (page_step cb total) st =
  mkStore (calls st ++ match cb with
                       | Some _ => count_up total (processed st) n
                       | None => []
                       end)
          (processed st + n) (dirs st) (files st).
Proof.
  induction n as [|n IH]; intros st.
  - simpl. destruct st, cb; simpl; by rewrite app_nil_r, Nat.add_0_r.
  - rewrite Nat.iter_succ_r, IH. simpl.
    replace (processed st + 1 + n) with (processed st + S n) by lia.
    f_equal. rewrite <- app_assoc. f_equal. destruct cb; [|done].
    unfold count_up. simpl. by replace (processed st + 1) with (S (processed st)) by lia.
Qed.

Lemma page_loop_run {P} (g : P -> str) cb total (pages : list P) : forall k acc st,
  for_each (enumerate k pages)
    (fun texts '(idx, page) =>
       let texts := texts ++ [g page] in
       n <- get_processed ;;
       set_processed (n + 1) ;;;
       notify cb (n + 1) total ;;;
       ret texts)
    acc st
  = (Ok (acc ++ map g pages), Nat.iter (length pages) (page_step cb total) st).
Proof.
  induction pages as [|page pages IH]; intros k acc st.
  - simpl. by rewrite app_nil_r.
  - cbn [enumerate for_each length]. rewrite Nat.iter_succ_r.
    unfold bind at 1. unfold bind at 1. cbn [get_processed].
    unfold bind at 1. cbn [set_processed modify].
    unfold bind at 1. rewrite notify_run. cbn [ret processed calls dirs files].
    rewrite IH. rewrite <- app_assoc. f_equal. f_equal.
    unfold page_step. destruct cb; simpl; [done|]. by rewrite app_nil_r.
Qed.

Lemma extract_text_layer_run E pdf_path remove_tokens cb auto_format st :
  _extract_text_layer_pages E pdf_path remove_tokens cb auto_format st
  = (Ok (map (text_layer_page remove_tokens auto_format) (pdfplumber_pages E pdf_path)),
     after_loop cb (length (pdfplumber_pages E pdf_path)) st).
Proof.
  unfold _extract_text_layer_pages.
  unfold bind at 1. rewrite notify_run.
  unfold bind at 1. cbn [set_processed modify].
  rewrite page_loop_run, page_steps. unfold after_loop.
  destruct cb; simpl; [|done]. by rewrite <- app_assoc.
Qed.

(** ** The three conversions, run *)

Lemma extract_pdf_text_to_docx_run E pdf_path output_path remove_tokens cb
    auto_format font_name font_size_pt st :
  path_exists E pdf_path = true ->
  extract_pdf_text_to_docx E pdf_path output_path remove_tokens cb auto_format
    font_name font_size_pt st
  = (Ok (abspath E (docx_path output_path)),
     after_conversion E
       (after_loop cb (length (pdfplumber_pages E pdf_path)) st) output_path
       (document_of font_name font_size_pt
          (map (text_layer_page remove_tokens auto_format) (pdfplumber_pages E pdf_path)))
       st).
Proof.
  intros Hex. unfold extract_pdf_text_to_docx. rewrite Hex. cbn [negb].
  unfold bind at 1. cbn [makedirs modify].
  unfold bind at 1. rewrite extract_text_layer_run.
  unfold bind, save, modify, ret. done.
Qed.

Lemma extract_pdf_text_to_docx_missing E pdf_path output_path remove_tokens cb
    auto_format font_name font_size_pt st :
  path_exists E pdf_path = false ->
  exists e, extract_pdf_text_to_docx E pdf_path output_path remove_tokens cb
              auto_format font_name font_size_pt st = (Raise e, st).
Proof.
  intros Hex. unfold extract_pdf_text_to_docx. rewrite Hex. cbn [negb].
  eexists. reflexivity.
Qed.

Lemma convert_pdf_to_docx_Ok_inv E sched pdf_path output_path lang dpi poppler_path
    ocr_engine max_workers cb auto_format font_name font_size_pt st path st' :
  convert_pdf_to_docx E sched pdf_path output_path lang dpi poppler_path ocr_engine
    max_workers cb auto_format font_name font_size_pt st = (Ok path, st') ->
  let images := convert_from_path E pdf_path dpi poppler_path in
  exists raw_texts,
    images <> [] /\
    recognised E lang ocr_engine images raw_texts /\
    path = abspath E (docx_path output_path) /\
    st' = after_conversion E (after_pages cb (length images) st) output_path
            (document_of font_name font_size_pt (formatted auto_format raw_texts)) st.
Proof.
  unfold convert_pdf_to_docx.
  destruct (path_exists E pdf_path); cbn [negb]; [|done].
  unfold bind at 1. cbn [makedirs modify].
  destruct (convert_from_path E pdf_path dpi poppler_path) as [|img images] eqn:Himages;
    [done|].
  unfold bind at 1.
  destruct (_ocr_pages_in_parallel _ _ _ _ _ _ _ _) as [[texts|e] st1] eqn:Hrun; [|done].
  apply ocr_pages_Ok_inv in Hrun as [Hrec ->].
  unfold bind, save, modify, ret. intros [= <- <-].
  exists texts. split_and!; try done.
  unfold after_conversion, after_pages. by destruct cb.
Qed.

(** Without a page image nothing is recognised and nothing is saved. *)
Lemma convert_pdf_to_docx_no_pages E sched pdf_path output_path lang dpi poppler_path
    ocr_engine max_workers cb auto_format font_name font_size_pt st :
  convert_from_path E pdf_path dpi poppler_path = [] ->
  exists e st',
    convert_pdf_to_docx E sched pdf_path output_path lang dpi poppler_path ocr_engine
      max_workers cb auto_format font_name font_size_pt st = (Raise e, st') /\
    files st' = files st /\ calls st' = calls st.
Proof.
  intros Himages. unfold convert_pdf_to_docx.
  destruct (path_exists E pdf_path); cbn [negb].
  - unfold bind at 1. cbn [makedirs modify]. rewrite Himages.
    eexists _, _. split; [reflexivity|done].
  - eexists _, _. split; [reflexivity|done].
Qed.

Lemma convert_pdf_to_docx_mac_vision_run E pdf_path output_path dpi cb auto_format
    font_name font_size_pt st open_pdf recognize :
  fitz E = Some open_pdf -> ocrmac E = Some recognize ->
  path_exists E pdf_path = true ->
  convert_pdf_to_docx_mac_vision E pdf_path output_path dpi cb auto_format
    font_name font_size_pt st
  = (Ok (abspath E (docx_path output_path)),
     after_conversion E (after_loop cb (length (open_pdf pdf_path dpi)) st) output_path
       (document_of font_name font_size_pt
          (formatted auto_format (map (mac_page_text E recognize) (open_pdf pdf_path dpi))))
       st).
Proof.
  intros Hfitz Hocrmac Hex. unfold convert_pdf_to_docx_mac_vision.
  rewrite Hfitz, Hocrmac, Hex. cbn [negb].
  unfold bind at 1. cbn [makedirs modify].
  unfold bind at 1. rewrite notify_run.
  unfold bind at 1. cbn [set_processed modify].
  unfold bind at 1. rewrite page_loop_run, page_steps.
  unfold bind, save, modify, ret, after_conversion, after_loop.
  destruct cb; cbn [calls processed dirs files]; [|by rewrite app_nil_r].
  by rewrite <- app_assoc.
Qed.

Lemma convert_pdf_to_docx_mac_vision_Ok_inv E pdf_path output_path dpi cb auto_format
    font_name font_size_pt st path st' :
  convert_pdf_to_docx_mac_vision E pdf_path output_path dpi cb auto_format
    font_name font_size_pt st = (Ok path, st') ->
  exists open_pdf recognize,
    fitz E = Some open_pdf /\ ocrmac E = Some recognize /\
    path_exists E pdf_path = true.
Proof.
  unfold convert_pdf_to_docx_mac_vision.
  destruct (fitz E) as [open_pdf|]; [|done].
  destruct (ocrmac E) as [recognize|]; [|done].
  destruct (path_exists E pdf_path); [|done].
  intros _. by exists open_pdf, recognize.
Qed.

(** ** C1: the texts come back in page order *)

Lemma recognised_exists E lang ocr_engine (images : list (Image E)) :
  (forall img, img ∈ images -> exists text, recognise E ocr_engine lang img = Ok text) ->
  exists texts, recognised E lang ocr_engine images texts.
Proof.
  induction images as [|img images IH]; intros Hall.
  - exists []. constructor.
  - destruct (Hall img) as [text Htext]; [apply elem_of_cons; by left|].
    destruct IH as [texts Htexts].
    { intros img' Hin. apply Hall. apply elem_of_cons. by right. }
    exists (text :: texts). by constructor.
Qed.

(** C1. For every list of page images, language, engine, callback and
    bound on the workers that is left out or at least one, and for every
    order in which the workers complete, [_ocr_pages_in_parallel] returns,
    when each page is recognised, a list with one text per image in which
    the text at index [i] is the text recognised for the image at index
    [i]. *)
Theorem ocr_pages_in_order (E : Env) (sched : list nat) (images : list (Image E))
    (lang ocr_engine : str) (max_workers : option Z) (cb : option Callable)
    (st : Store) :
  workers_ok max_workers ->
  (forall img, img ∈ images -> exists text, recognise E ocr_engine lang img = Ok text) ->
  exists texts st',
    _ocr_pages_in_parallel E sched images lang ocr_engine max_workers cb st
      = (Ok texts, st') /\
    length texts = length images /\
    forall i img, images !! i = Some img ->
      exists text, texts !! i = Some text /\ recognise E ocr_engine lang img = Ok text.
Proof.
  intros Hw Hall.
  destruct (recognised_exists _ _ _ _ Hall) as [texts Hrec].
  exists texts, (after_pages cb (length images) st). split_and!.
  - by apply ocr_pages_run.
  - symmetry. by eapply Forall2_length.
  - intros i img Hi.
    destruct (Forall2_lookup_l _ _ _ _ _ Hrec Hi) as (text & Htext & Himg). eauto.
Qed.

Lemma ocr_pages_in_order_witness :
  exists texts st',
    _ocr_pages_in_parallel sample_env [2; 0; 1] [1; 2; 3]%N (u "eng") (u "tesseract")
      (Some 4%Z) (Some tt) empty_store = (Ok texts, st') /\
    length texts = 3 /\
    forall i img, [1; 2; 3]%N !! i = Some img ->
      exists text, texts !! i = Some text /\
        recognise sample_env (u "tesseract") (u "eng") img = Ok text.
Proof.
  apply (ocr_pages_in_order sample_env [2; 0; 1] [1; 2; 3]%N (u "eng") (u "tesseract")
           (Some 4%Z) (Some tt) empty_store).
  - simpl. lia.
  - intros img _. eexists. vm_compute. reflexivity.
Defined.

(** ** C2: what the progress callback receives *)

(** C2. For every run over [N] pages with a callback, the callback
    receives first [(0, N)] and then one call per page: [N + 1] calls in
    all, whose first components never decrease, whose second component is
    always [N], and the last of which is [(N, N)]. *)
Theorem progress_callback_sequence (E : Env) (cb : Callable) (N : nat) (st st' : Store) :
  page_run E (Some cb) N st st' ->
  exists log, calls st' = calls st ++ log /\ progress_report N log.
Proof.
  intros Hrun. exists ((0, N) :: count_up N 0 N).
  split; [|apply progress_report_count_up].
  destruct Hrun as [sched images lang ocr_engine max_workers texts st st' Hrun
                   |pdf_path remove_tokens auto_format texts st st' Hrun
                   |open_pdf pdf_path output_path dpi auto_format font_name font_size_pt
                      path st st' Hfitz Hrun].
  - apply ocr_pages_Ok_inv in Hrun as [_ ->]. done.
  - rewrite extract_text_layer_run in Hrun. by injection Hrun as _ <-.
  - destruct (convert_pdf_to_docx_mac_vision_Ok_inv _ _ _ _ _ _ _ _ _ _ _ Hrun)
      as (open_pdf' & recognize & Hfitz' & Hocrmac & Hex).
    rewrite (convert_pdf_to_docx_mac_vision_run _ _ _ _ _ _ _ _ _ _ _ Hfitz' Hocrmac Hex)
      in Hrun.
    injection Hrun as _ <-. simplify_eq. done.
Qed.

Lemma progress_callback_sequence_witness :
  exists log,
    calls (snd (_ocr_pages_in_parallel sample_env [2; 0; 1] [1; 2; 3]%N (u "eng")
                  (u "tesseract") (Some 4%Z) (Some tt) empty_store))
      = calls empty_store ++ log /\
    progress_report 3 log.
Proof.
  apply (progress_callback_sequence sample_env tt 3 empty_store).
  eapply (run_parallel sample_env (Some tt) [2; 0; 1] [1; 2; 3]%N (u "eng")
            (u "tesseract") (Some 4%Z)).
  vm_compute. reflexivity.
Defined.

(** ** The blocks of the document *)

Lemma write_pages_from (n : nat) (rest : list str) : forall k doc,
  n = k + length rest - 1 ->
  fold_left
    (fun doc '(idx, text) =>
       let doc := add_paragraph doc (or_empty (Some text)) in
       if negb (idx =? n) then add_page_break doc else doc)
    (enumerate k rest) doc
  = mkDocument (normal_font doc) (normal_size_pt doc) (east_asia_font doc)
               (body doc ++ page_blocks rest).
Proof.
  induction rest as [|text rest IH]; intros k doc Hn.
  - simpl. rewrite app_nil_r. by destruct doc.
  - cbn [enumerate fold_left]. rewrite or_empty_Some.
    destruct rest as [|text' rest].
    + simpl in Hn. replace (k =? n) with true by (symmetry; apply Nat.eqb_eq; lia).
      done.
    + replace (k =? n) with false
        by (symmetry; apply Nat.eqb_neq; simpl in Hn; lia).
      cbn [negb]. rewrite IH by (simpl in *; lia).
      cbn [add_page_break add_paragraph normal_font normal_size_pt east_asia_font body].
      rewrite <- !app_assoc. done.
Qed.

Lemma document_of_body font_name font_size_pt page_texts :
  document_of font_name font_size_pt page_texts
  = mkDocument (Some font_name) (Some font_size_pt) (Some font_name)
               (page_blocks page_texts).
Proof.
  unfold document_of, write_pages. rewrite write_pages_from; [done|lia].
Qed.

Lemma page_blocks_counts page_texts :
  count_paragraphs (page_blocks page_texts) = length page_texts /\
  count_page_breaks (page_blocks page_texts) = length page_texts - 1.
Proof.
  unfold count_paragraphs, count_page_breaks.
  induction page_texts as [|text [|text' rest] IH]; [done..|].
  destruct IH as [IH1 IH2].
  change (page_blocks (text :: text' :: rest))
    with (Paragraph text :: PageBreak :: page_blocks (text' :: rest)).
  cbn [List.filter is_paragraph negb length]. rewrite IH1, IH2. simpl. lia.
Qed.

(** The paragraph of page [i] holds the text of page [i]. *)
Lemma page_blocks_paragraphs page_texts :
  List.filter is_paragraph (page_blocks page_texts) = map Paragraph page_texts.
Proof.
  induction page_texts as [|text [|text' rest] IH]; [done..|].
  change (page_blocks (text :: text' :: rest))
    with (Paragraph text :: PageBreak :: page_blocks (text' :: rest)).
  cbn [List.filter is_paragraph]. by rewrite IH.
Qed.

(** ** A call of one of the three conversions *)

Lemma formatted_length auto_format texts :
  length (formatted auto_format texts) = length texts.
Proof. destruct auto_format; simpl; [apply length_map|done]. Qed.

(** A conversion that returns has saved one document, made of the texts
    of the pages, and returns the absolute form of its path. *)
Lemma convert_Ok (E : Env) (r : request) (st : Store) (path : str) (st' : Store) :
  convert E r st = (Ok path, st') ->
  exists texts,
    page_texts_in_order E r texts /\
    length texts = page_count E r /\
    path = abspath E (docx_path (requested_path r)) /\
    files st' = files st ++
      [(docx_path (requested_path r),
        document_of (fst (requested_font r)) (snd (requested_font r)) texts)].
Proof.
  destruct r as [sched pdf_path output_path lang dpi poppler_path ocr_engine max_workers
                   cb auto_format font_name font_size_pt
                |pdf_path output_path remove_tokens cb auto_format font_name font_size_pt
                |pdf_path output_path dpi cb auto_format font_name font_size_pt];
    cbn [convert requested_path requested_font page_count page_texts_in_order fst snd];
    intros Hrun.
  - apply convert_pdf_to_docx_Ok_inv in Hrun as (raw & Hne & Hrec & -> & ->).
    exists (formatted auto_format raw). split_and!; [by exists raw| |done..].
    rewrite formatted_length. symmetry. by eapply Forall2_length.
  - destruct (path_exists E pdf_path) eqn:Hex.
    + rewrite extract_pdf_text_to_docx_run in Hrun by done.
      injection Hrun as <- <-. eexists. split_and!; [done| |done..].
      by rewrite length_map.
    + destruct (extract_pdf_text_to_docx_missing E pdf_path output_path remove_tokens
                  cb auto_format font_name font_size_pt st Hex) as [e He].
      congruence.
  - destruct (convert_pdf_to_docx_mac_vision_Ok_inv _ _ _ _ _ _ _ _ _ _ _ Hrun)
      as (open_pdf & recognize & Hfitz & Hocrmac & Hex).
    rewrite (convert_pdf_to_docx_mac_vision_run _ _ _ _ _ _ _ _ _ _ _ Hfitz Hocrmac Hex)
      in Hrun.
    injection Hrun as <- <-. rewrite Hfitz. eexists. split_and!; [|  |done..].
    + by exists open_pdf, recognize.
    + by rewrite formatted_length, length_map.
Qed.

(** ** C7: one paragraph per page, a break between two pages *)

(** C7. Every conversion of [N] pages that returns, in each of the three
    modes and with formatting on or off, has saved one document whose
    body is the paragraphs of the page texts in page order with a page
    break after each but the last: [N] paragraphs, the one of page [i]
    holding the text of page [i] (empty for a blank or unreadable page),
    and [N - 1] page breaks (none when there is no page). *)
Theorem pagination (E : Env) (r : request) (st : Store) (path : str) (st' : Store) :
  convert E r st = (Ok path, st') ->
  exists saved doc texts,
    files st' = files st ++ [(saved, doc)] /\
    page_texts_in_order E r texts /\
    body doc = page_blocks texts /\
    List.filter is_paragraph (body doc) = map Paragraph texts /\
    count_paragraphs (body doc) = page_count E r /\
    count_page_breaks (body doc) = page_count E r - 1.
Proof.
  intros Hrun.
  destruct (convert_Ok _ _ _ _ _ Hrun) as (texts & Horder & Hlen & _ & Hfiles).
  eexists _, _, texts. rewrite document_of_body in Hfiles.
  split_and!; [exact Hfiles|done|done|..]; cbn [body].
  - apply page_blocks_paragraphs.
  - rewrite <- Hlen. apply page_blocks_counts.
  - rewrite <- Hlen. apply page_blocks_counts.
Qed.

Lemma pagination_witness :
  exists saved doc texts,
    files (snd (convert sample_env sample_text_request empty_store))
      = files empty_store ++ [(saved, doc)] /\
    page_texts_in_order sample_env sample_text_request texts /\
    body doc = page_blocks texts /\
    List.filter is_paragraph (body doc) = map Paragraph texts /\
    count_paragraphs (body doc) = 3 /\
    count_page_breaks (body doc) = 2.
Proof.
  apply (pagination sample_env sample_text_request empty_store
           (fst (abspath sample_env (u "out.DOCX"), tt))).
  vm_compute. reflexivity.
Defined.

(** ** C10: the extension of the output path *)

Lemma rev_flat_map {A B} (f : A -> list B) (l : list A) :
  rev (flat_map f l) = flat_map (fun a => rev (f a)) (rev l).
Proof.
  induction l as [|a l IH]; simpl; [done|].
  by rewrite rev_app_distr, IH, flat_map_app; simpl; rewrite app_nil_r.
Qed.

Ltac split_code_point :=
  repeat (cbn [rev app startswith andb orb];
          match goal with
          | |- context [(?a <=? ?b)%N] => destruct (N.leb_spec a b)
          | |- context [(?a =? ?b)%N] => destruct (N.eqb_spec a b)
          end);
  cbn [rev app startswith andb orb]; try done; try lia.

(** A small letter [t] other than [k] is the lower case of itself and of
    its capital alone. *)
Lemma lower_cp_letter (c t : N) (rest tl : str) :
  (97 <= t <= 122)%N -> t <> 107%N ->
  startswith (rev (lower_cp c) ++ rest) (t :: tl)
  = one_of c t (t - 32) && startswith rest tl.
Proof. intros Ht Hk. unfold lower_cp, one_of. split_code_point. Qed.

Lemma lower_cp_dot (c : N) (rest tl : str) :
  startswith (rev (lower_cp c) ++ rest) (46%N :: tl) = (c =? 46)%N && startswith rest tl.
Proof. unfold lower_cp. split_code_point. Qed.

Lemma startswith_nil (s : str) : startswith s [] = true.
Proof. by destruct s. Qed.

Lemma endswith_lower_docx (p : str) :
  endswith (lower p) (u ".docx") = ends_with_docx_any_case p.
Proof.
  unfold endswith, lower, ends_with_docx_any_case. rewrite rev_flat_map.
  change (rev (u ".docx")) with [120; 99; 111; 100; 46]%N.
  destruct (rev p) as [|x [|c [|o [|d [|dot rest]]]]]; cbn [flat_map];
    rewrite ?lower_cp_letter, ?lower_cp_dot by lia;
    cbn [startswith]; rewrite ?andb_false_r; try done.
  change (120 - 32)%N with 88%N. change (99 - 32)%N with 67%N.
  change (111 - 32)%N with 79%N. change (100 - 32)%N with 68%N.
  rewrite startswith_nil.
  destruct (one_of x 120 88), (one_of c 99 67), (one_of o 111 79), (one_of d 100 68),
    (dot =? 46)%N; done.
Qed.

Lemma docx_path_any_case (p : str) :
  docx_path p = if ends_with_docx_any_case p then p else p ++ u ".docx".
Proof.
  unfold docx_path. rewrite endswith_lower_docx.
  by destruct (ends_with_docx_any_case p).
Qed.

(** C10. Every conversion that returns, in each of the three modes, has
    saved its document at the requested path itself when that path ends
    with [.docx] in any letter case, and otherwise at the requested path
    followed by [.docx], once; it returns the absolute form of the path it
    saved at. *)
Theorem output_path_extension (E : Env) (r : request) (st : Store) (path : str)
    (st' : Store) :
  convert E r st = (Ok path, st') ->
  let saved :=
    if ends_with_docx_any_case (requested_path r)
    then requested_path r
    else requested_path r ++ u ".docx" in
  (exists doc, files st' = files st ++ [(saved, doc)]) /\
  path = abspath E saved.
Proof.
  intros Hrun saved.
  destruct (convert_Ok _ _ _ _ _ Hrun) as (texts & _ & _ & -> & Hfiles).
  rewrite docx_path_any_case in Hfiles |- *. eauto.
Qed.

Lemma output_path_extension_witness :
  (exists doc,
     files (snd (convert sample_env sample_text_request empty_store))
       = files empty_store ++ [(u "out.DOCX", doc)]) /\
  u "/work/out.DOCX" = abspath sample_env (u "out.DOCX").
Proof.
  apply (output_path_extension sample_env sample_text_request empty_store
           (u "/work/out.DOCX")).
  vm_compute. reflexivity.
Defined.

(** ** C3: the sentence ends that close a paragraph *)

(** With a paragraph under way, the line closes it after one of the marks
    of [end_punct] and is joined to it with one blank otherwise. *)
Lemma merge_step_rule (merged : list str) (buf ln : str) :
  buf <> [] ->
  merge_step (merged, buf) ln =
  let ln := collapse_spaces (_clean_chinese_spacing ln) in
  if endswith_any buf end_punct then (merged ++ [buf], ln)
  else (merged, buf ++ [32%N] ++ ln).
Proof.
  intros Hbuf. unfold merge_step.
  destruct (truthy buf) eqn:Ht; [done|]. by apply truthy_false in Ht.
Qed.

(** C3, at the half-width full stop. The full stop [.] is not among the
    marks of [end_punct]: a line that follows [Hello.] is joined to it
    with a blank, where a line that follows a paragraph ending with the
    ideographic full stop opens a new paragraph. *)
Theorem half_width_period_joins :
  endswith_any (u "Hello.") end_punct = false /\
  merge_step ([], u "Hello.") (u "World") = ([], u "Hello. World") /\
  _format_page_text (u "Hello.
World") = u "Hello. World" /\
  _format_page_text (u "你好。
世界") = u "你好。

世界".
Proof. vm_compute. done. Qed.

(** ** C4 and C5: the spacing repair leaves every other gap *)

(** C5, at three ideographs with a blank between each two. The second
    ideograph is used up by the first match, so the gap after it is not
    looked at: one pass closes the first gap only. *)
Theorem clean_leaves_second_gap :
  _clean_chinese_spacing (u "中 文 字") = u "中文 字".
Proof. vm_compute. done. Qed.

(** C4, at the same text. A second pass closes the gap the first pass
    left, so the second pass changes the text of the first. *)
Theorem clean_twice_differs :
  _clean_chinese_spacing (_clean_chinese_spacing (u "中 文 字")) = u "中文字" /\
  _clean_chinese_spacing (_clean_chinese_spacing (u "中 文 字"))
    <> _clean_chinese_spacing (u "中 文 字").
Proof. vm_compute. split; [done|discriminate]. Qed.

(** ** C6: the order of repair and token removal in text-layer mode *)

(** C6, against the order of the claim. The token [页 眉], which has a
    blank between two ideographs, stays in the page: the repair has closed the blank before the token is looked
    for. Removal first would have taken it out. *)
Lemma token_with_gap_survives :
  text_layer_page (Some [u "页 眉"]) true (Some (u "页 眉 正文")) = u "页眉正文" /\
  removal_first_page [u "页 眉"] true (Some (u "页 眉 正文")) = u "正文" /\
  text_layer_page (Some [u "页 眉"]) true (Some (u "页 眉 正文"))
    <> removal_first_page [u "页 眉"] true (Some (u "页 眉 正文")).
Proof. vm_compute. split_and!; [done..|discriminate]. Qed.

(** C6, amended. In text-layer mode the text of every page with content
    is made in this order: the spacing repair on the raw text, then the
    removal of every occurrence of each token from the repaired text, then
    the formatting when it is on, then the strip; a page without content
    gives the empty text; and the texts come in page order. *)
Theorem text_layer_repairs_then_removes (E : Env) (pdf_path : str) (tokens : list str)
    (cb : option Callable) (auto_format : bool) (st : Store) :
  exists st',
    _extract_text_layer_pages E pdf_path (Some tokens) cb auto_format st
    = (Ok (map (fun extracted =>
                  match extracted with
                  | Some content =>
                      if truthy content then
                        strip ((if auto_format then _format_page_text else id)
                                 (remove_all tokens (_clean_chinese_spacing content)))
                      else []
                  | None => []
                  end)
               (pdfplumber_pages E pdf_path)),
       st').
Proof.
  eexists. rewrite extract_text_layer_run. f_equal. f_equal.
  apply map_ext. intros [content|]; [|done]. simpl.
  destruct (truthy content); [|done]. by destruct auto_format.
Qed.

(** ** C8: a source without pages *)

(** The OCR conversion stops at an input without page images; the Vision
    conversion has no such check and goes on to save a document without
    blocks. *)
Lemma vision_no_pages_saves (E : Env) pdf_path output_path dpi cb auto_format
    font_name font_size_pt st open_pdf recognize :
  fitz E = Some open_pdf -> ocrmac E = Some recognize ->
  path_exists E pdf_path = true ->
  open_pdf pdf_path dpi = [] ->
  exists st',
    convert_pdf_to_docx_mac_vision E pdf_path output_path dpi cb auto_format
      font_name font_size_pt st = (Ok (abspath E (docx_path output_path)), st') /\
    files st' = files st ++
      [(docx_path output_path,
        mkDocument (Some font_name) (Some font_size_pt) (Some font_name) [])].
Proof.
  intros Hfitz Hocrmac Hex Hpages. eexists. split.
  - by apply convert_pdf_to_docx_mac_vision_run.
  - rewrite Hpages. cbn [after_conversion files]. rewrite document_of_body.
    by destruct auto_format.
Qed.

(** C8, at a PDF without pages in Vision mode. The conversion raises
    nothing: it reports [(0, 0)], saves a document without blocks and
    returns its path. The OCR conversion raises [ValueError] on an input
    without page images and saves nothing. *)
Theorem vision_zero_pages_no_error :
  convert_pdf_to_docx_mac_vision sample_env (u "empty.pdf") (u "out") 300 (Some tt)
    true (u "SimSun") 12 empty_store
  = (Ok (u "/work/out.docx"),
     mkStore [(0, 0)] 0 [u "/work"]
       [(u "out.docx",
         mkDocument (Some (u "SimSun")) (Some 12%Z) (Some (u "SimSun")) [])]).
Proof. vm_compute. done. Qed.

(** * Further properties of the text reconstruction *)

(** ** Only white space is touched *)

Lemma nonspace_app (a b : str) : nonspace (a ++ b) = nonspace a ++ nonspace b.
Proof. apply List.filter_app. Qed.

Lemma nonspace_space c s : isspace c = true -> nonspace (c :: s) = nonspace s.
Proof. intros Hc. unfold nonspace. simpl. by rewrite Hc. Qed.

Lemma nonspace_char c s : isspace c = false -> nonspace (c :: s) = c :: nonspace s.
Proof. intros Hc. unfold nonspace. simpl. by rewrite Hc. Qed.

Lemma nonspace_lstrip s : nonspace (lstrip s) = nonspace s.
Proof.
  induction s as [|c s IH]; [done|]. cbn [lstrip].
  destruct (isspace c) eqn:Hc; [|done]. by rewrite nonspace_space.
Qed.

Lemma nonspace_rev s : nonspace (rev s) = rev (nonspace s).
Proof.
  induction s as [|c s IH]; [done|]. cbn [rev]. rewrite nonspace_app, IH.
  destruct (isspace c) eqn:Hc.
  - rewrite !nonspace_space by done. by rewrite app_nil_r.
  - rewrite !nonspace_char by done. done.
Qed.

Lemma nonspace_strip s : nonspace (strip s) = nonspace s.
Proof.
  unfold strip, rstrip.
  by rewrite nonspace_rev, nonspace_lstrip, nonspace_rev, rev_involutive, nonspace_lstrip.
Qed.

Lemma nonspace_nil_lstrip s : nonspace s = [] -> lstrip s = [].
Proof.
  induction s as [|c s IH]; [done|]. cbn [lstrip].
  destruct (isspace c) eqn:Hc.
  - rewrite nonspace_space by done. done.
  - rewrite nonspace_char by done. done.
Qed.

Lemma nonspace_nil_strip s : nonspace s = [] -> strip s = [].
Proof. intros Hs. unfold strip. by rewrite (nonspace_nil_lstrip s Hs). Qed.

Lemma nonspace_clean n : forall s, length s <= n ->
  nonspace (_clean_chinese_spacing s) = nonspace s.
Proof.
  induction n as [|n IH]; intros s Hn.
  { destruct s; simpl in *; [done|lia]. }
  destruct s as [|c s]; [done|]. simpl in Hn.
  destruct (cjk_gap c s) eqn:Hgap.
  - destruct (clean_gap _ _ Hgap) as (d & rest & Hr & Hd & ->).
    apply andb_true_iff in Hgap as [Hc _].
    apply is_cjk_not_space in Hc, Hd.
    pose proof (lstrip_length s) as Hlen. rewrite Hr in Hlen. simpl in Hlen.
    rewrite !nonspace_char by done. rewrite IH by lia.
    rewrite <- (nonspace_lstrip s), Hr. by rewrite nonspace_char.
  - rewrite clean_no_gap by done.
    destruct (isspace c) eqn:Hc.
    + rewrite !nonspace_space by done. apply IH. lia.
    + rewrite !nonspace_char by done. f_equal. apply IH. lia.
Qed.

Lemma nonspace_collapse n : forall s, length s <= n ->
  nonspace (collapse_spaces s) = nonspace s.
Proof.
  induction n as [|n IH]; intros s Hn.
  { destruct s; simpl in *; [done|lia]. }
  destruct s as [|c s]; [done|]. simpl in Hn.
  destruct (isspace c) eqn:Hc.
  - rewrite collapse_space by done.
    rewrite (nonspace_space 32%N) by done. rewrite nonspace_space by done.
    rewrite IH by (pose proof (lstrip_length s); lia). apply nonspace_lstrip.
  - rewrite collapse_char by done. rewrite !nonspace_char by done.
    f_equal. apply IH. lia.
Qed.

Lemma is_linebreak_space c : is_linebreak c = true -> isspace c = true.
Proof.
  unfold is_linebreak, isspace. intros H.
  repeat match goal with
  | H : (_ || _) = true |- _ => apply orb_true_iff in H as [H|H]
  | H : (_ && _) = true |- _ => apply andb_true_iff in H as [? ?]
  | H : (_ <=? _)%N = true |- _ => apply N.leb_le in H
  | H : (_ =? _)%N = true |- _ => apply N.eqb_eq in H
  end; subst; try done;
  repeat match goal with
  | |- context [(?a <=? ?b)%N] => destruct (N.leb_spec a b)
  end; simpl; try done; lia.
Qed.

Lemma nonspace_splitlines n : forall s cur, length s <= n ->
  flat_map nonspace (splitlines_from cur s) = nonspace (rev cur) ++ nonspace s.
Proof.
  induction n as [|n IH]; intros s cur Hn.
  { destruct s; simpl in *; [|lia]. destruct cur; simpl; by rewrite ?app_nil_r. }
  destruct s as [|c s].
  { destruct cur; simpl; by rewrite ?app_nil_r. }
  simpl in Hn. cbn [splitlines_from].
  destruct (is_linebreak c) eqn:Hc.
  - rewrite (nonspace_space c) by (by apply is_linebreak_space).
    cbn [flat_map]. f_equal.
    destruct s as [|d s]; [by rewrite IH by (simpl; lia)|].
    destruct ((c =? 13)%N && (d =? 10)%N) eqn:Hcr.
    + apply andb_true_iff in Hcr as [_ Hd]. apply N.eqb_eq in Hd. subst d.
      rewrite IH by (simpl in *; lia). by rewrite (nonspace_space 10%N).
    + by rewrite IH by (simpl in *; lia).
  - assert (Hcur : nonspace (rev (c :: cur)) ++ nonspace s
                   = nonspace (rev cur) ++ nonspace (c :: s)).
    { simpl. rewrite nonspace_app, <- app_assoc. f_equal.
      destruct (isspace c) eqn:Hsp.
      - by rewrite !nonspace_space.
      - by rewrite !nonspace_char. }
    rewrite <- Hcur. apply IH. lia.
Qed.

Lemma nonspace_nonblank_lines text :
  flat_map nonspace (nonblank_lines text) = nonspace text.
Proof.
  unfold nonblank_lines, splitlines.
  pose proof (nonspace_splitlines (length text) text [] (Nat.le_refl _)) as Hsplit.
  change (nonspace (rev []) ++ nonspace text) with (nonspace text) in Hsplit.
  rewrite <- Hsplit. clear Hsplit.
  induction (splitlines_from [] text) as [|ln lines IH]; [done|].
  rewrite filter_cons. cbn [flat_map]. rewrite <- IH.
  destruct (decide (strip ln ≠ [])) as [Hne|He].
  - cbn [map flat_map]. by rewrite nonspace_strip.
  - apply dec_stable in He. by rewrite <- (nonspace_strip ln), He.
Qed.

Lemma nonspace_merge_step merged buf ln :
  let st' := merge_step (merged, buf) ln in
  flat_map nonspace (fst st') ++ nonspace (snd st')
  = (flat_map nonspace merged ++ nonspace buf) ++ nonspace ln.
Proof.
  assert (Hln : nonspace (collapse_spaces (_clean_chinese_spacing ln)) = nonspace ln).
  { by rewrite (nonspace_collapse _ _ (Nat.le_refl _)),
               (nonspace_clean _ _ (Nat.le_refl _)). }
  cbv zeta. unfold merge_step.
  destruct (truthy buf) eqn:Hb; cbn [negb].
  - destruct (endswith_any buf end_punct); cbn [fst snd].
    + rewrite flat_map_app. cbn [flat_map]. by rewrite app_nil_r, Hln.
    + rewrite !nonspace_app, (nonspace_space 32%N) by done. cbn [nonspace List.filter].
      by rewrite Hln, <- app_assoc.
  - apply truthy_false in Hb as ->. cbn [fst snd]. by rewrite Hln, app_nil_r.
Qed.

Lemma nonspace_merge_loop lines : forall st,
  let st' := fold_left merge_step lines st in
  flat_map nonspace (fst st') ++ nonspace (snd st')
  = (flat_map nonspace (fst st) ++ nonspace (snd st)) ++ flat_map nonspace lines.
Proof.
  induction lines as [|ln lines IH]; intros [merged buf]; cbv zeta in *.
  - simpl. by rewrite app_nil_r.
  - cbn [fold_left flat_map]. rewrite IH.
    destruct (merge_step (merged, buf) ln) as [merged' buf'] eqn:Hstep.
    pose proof (nonspace_merge_step merged buf ln) as H. cbv zeta in H.
    rewrite Hstep in H. rewrite H. by rewrite <- !app_assoc.
Qed.

Lemma nonspace_join paras : nonspace (join [10; 10]%N paras) = flat_map nonspace paras.
Proof.
  induction paras as [|p [|q paras] IH]; [done| |].
  - simpl. by rewrite app_nil_r.
  - change (join [10; 10]%N (p :: q :: paras))
      with (p ++ [10; 10]%N ++ join [10; 10]%N (q :: paras)).
    rewrite !nonspace_app, IH. done.
Qed.

Lemma nonspace_paragraphs_of text : flat_map nonspace (paragraphs_of text) = nonspace text.
Proof.
  unfold paragraphs_of.
  pose proof (nonspace_merge_loop (nonblank_lines (strip text)) ([], [])) as H.
  cbv zeta in H. rewrite nonspace_nonblank_lines, nonspace_strip in H.
  destruct (fold_left _ _ _) as [merged buf]. cbn [fst snd] in H. simpl in H.
  destruct (truthy buf) eqn:Hb.
  - rewrite flat_map_app. cbn [flat_map]. by rewrite app_nil_r.
  - apply truthy_false in Hb as ->. by rewrite app_nil_r in H.
Qed.

Lemma nonspace_format (text : str) :
  nonspace (_format_page_text text) = nonspace text.
Proof.
  rewrite format_page_text_join.
  destruct (truthy (strip text)) eqn:Ht.
  - by rewrite nonspace_join, nonspace_paragraphs_of.
  - apply truthy_false in Ht. by rewrite <- (nonspace_strip text), Ht.
Qed.

(** X1. Formatting a page changes white space only: the characters of the
    result that are not white space are those of the text, in the same
    order. *)
Theorem format_keeps_nonspace (text : str) :
  nonspace (_format_page_text text) = nonspace text.
Proof. apply nonspace_format. Qed.

(** X2. The formatted page is empty exactly when the text holds nothing
    but white space. *)
Theorem format_empty_iff_blank (text : str) :
  _format_page_text text = [] <-> Forall (fun c => isspace c = true) text.
Proof.
  assert (Hblank : forall s : str, nonspace s = [] <-> Forall (fun c => isspace c = true) s).
  { induction s as [|c s IH]; [by split; [constructor|]|].
    destruct (isspace c) eqn:Hc.
    - rewrite nonspace_space by done. rewrite IH. split.
      + by constructor.
      + by inversion 1.
    - rewrite nonspace_char by done. split; [done|]. inversion 1. congruence. }
  rewrite <- Hblank. split.
  - intros Hf. by rewrite <- nonspace_format, Hf.
  - intros Hn. rewrite format_page_text_join, (nonspace_nil_strip _ Hn). done.
Qed.

(** ** What the spacing repair deletes, and when it is done *)

Lemma clean_sublist n : forall s, length s <= n ->
  sublist (_clean_chinese_spacing s) s.
Proof.
  induction n as [|n IH]; intros s Hn.
  { destruct s; simpl in *; [done|lia]. }
  destruct s as [|c s]; [done|]. simpl in Hn.
  destruct (cjk_gap c s) eqn:Hgap.
  - destruct (clean_gap _ _ Hgap) as (d & rest & Hr & Hd & ->).
    pose proof (lstrip_length s) as Hlen. rewrite Hr in Hlen. simpl in Hlen.
    apply sublist_skip. rewrite (leading_spaces_lstrip s) at 1. rewrite Hr.
    apply sublist_inserts_l, sublist_skip, IH. lia.
  - rewrite clean_no_gap by done. apply sublist_skip, IH. lia.
Qed.

(** X3. The spacing repair deletes white space and nothing else: its
    result is the text with some characters left out, and the characters
    that are not white space are all still there, in order. *)
Theorem clean_deletes_only_spaces (s : str) :
  sublist (_clean_chinese_spacing s) s /\
  nonspace (_clean_chinese_spacing s) = nonspace s.
Proof.
  split.
  - by apply (clean_sublist (length s)).
  - by apply (nonspace_clean (length s)).
Qed.

Lemma clean_length_gap n : forall s, length s <= n -> has_gap s = true ->
  length (_clean_chinese_spacing s) < length s.
Proof.
  induction n as [|n IH]; intros s Hn Hgap.
  { destruct s; simpl in *; [done|lia]. }
  destruct s as [|c s]; [done|]. simpl in Hn. cbn [has_gap] in Hgap.
  destruct (cjk_gap c s) eqn:Hc.
  - destruct (clean_gap _ _ Hc) as (d & rest & Hr & Hd & ->).
    apply andb_true_iff in Hc as [_ Hc].
    pose proof (sublist_length _ _ (clean_sublist (length rest) rest (Nat.le_refl _))) as Hle.
    pose proof (f_equal length (leading_spaces_lstrip s)) as Hs.
    rewrite length_app, Hr in Hs.
    destruct (leading_spaces s); [done|]. simpl in *. lia.
  - rewrite clean_no_gap by done. simpl in *.
    specialize (IH s ltac:(lia) Hgap). lia.
Qed.

Lemma clean_no_gaps s : has_gap s = false -> _clean_chinese_spacing s = s.
Proof.
  induction s as [|c s IH]; [done|]. cbn [has_gap].
  intros [Hc Hs]%orb_false_iff. rewrite clean_no_gap by done. by rewrite IH.
Qed.

(** X4. The spacing repair leaves a text as it is exactly when no two
    ideographs of the text have only white space between them. *)
Theorem clean_fixed_iff_no_gap (s : str) :
  _clean_chinese_spacing s = s <-> has_gap s = false.
Proof.
  split; [|apply clean_no_gaps].
  intros Hfix. destruct (has_gap s) eqn:Hgap; [|done].
  pose proof (clean_length_gap (length s) s (Nat.le_refl _) Hgap) as Hlt.
  rewrite Hfix in Hlt. lia.
Qed.

(** The repair leaves a white space character at the head where it is. *)
Lemma clean_space_cons w s :
  isspace w = true -> _clean_chinese_spacing (w :: s) = w :: _clean_chinese_spacing s.
Proof.
  intros Hw. apply clean_no_gap. unfold cjk_gap.
  destruct (is_cjk w) eqn:Hcjk; [|done].
  apply is_cjk_not_space in Hcjk. congruence.
Qed.

Lemma clean_leading_spaces s :
  leading_spaces (_clean_chinese_spacing s) = leading_spaces s /\
  lstrip (_clean_chinese_spacing s) = _clean_chinese_spacing (lstrip s).
Proof.
  induction s as [|c s [IH1 IH2]]; [done|].
  destruct (isspace c) eqn:Hc.
  - rewrite clean_space_cons by done. cbn [leading_spaces lstrip]. rewrite Hc.
    by rewrite IH1, IH2.
  - cbn [leading_spaces lstrip]. rewrite Hc.
    pose proof (clean_head (c :: s)) as Hhd.
    destruct (_clean_chinese_spacing (c :: s)) as [|c' s']; [done|].
    simpl in Hhd. injection Hhd as ->. cbn [leading_spaces lstrip]. by rewrite Hc.
Qed.

Lemma cjk_gap_clean c s : cjk_gap c (_clean_chinese_spacing s) = cjk_gap c s.
Proof.
  unfold cjk_gap. destruct (clean_leading_spaces s) as [-> ->].
  pose proof (clean_head (lstrip s)) as Hhd.
  destruct (lstrip s) as [|d r], (_clean_chinese_spacing _) as [|d' r']; try done.
  simpl in Hhd. by injection Hhd as ->.
Qed.

(** After one pass the ideograph at the head has no gap behind it. *)
Lemma clean_head_no_gap c s r :
  _clean_chinese_spacing (c :: s) = c :: r -> cjk_gap c r = false.
Proof.
  destruct (cjk_gap c s) eqn:Hgap.
  - destruct (clean_gap _ _ Hgap) as (d & rest & _ & Hd & ->). intros [= <-].
    unfold cjk_gap. cbn [leading_spaces].
    rewrite (is_cjk_not_space _ Hd). apply andb_false_r.
  - rewrite clean_no_gap by done. intros [= <-]. by rewrite cjk_gap_clean.
Qed.

Lemma chained_suffix (a b : str) : chained (a ++ b) = false -> chained b = false.
Proof.
  induction a as [|c a IH]; [done|]. cbn [app chained].
  intros [_ H]%orb_false_iff. by apply IH.
Qed.

(** One pass leaves no three ideographs in a row with gaps between. *)
Lemma clean_not_chained n : forall s, length s <= n ->
  chained (_clean_chinese_spacing s) = false.
Proof.
  induction n as [|n IH]; intros s Hn.
  { destruct s; simpl in *; [done|lia]. }
  destruct s as [|c s]; [done|]. simpl in Hn.
  destruct (cjk_gap c s) eqn:Hgap.
  - destruct (clean_gap _ _ Hgap) as (d & rest & Hr & Hd & ->).
    pose proof (lstrip_length s) as Hlen. rewrite Hr in Hlen. simpl in Hlen.
    cbn [chained]. apply orb_false_iff. split.
    { unfold cjk_gap at 1. cbn [leading_spaces].
      rewrite (is_cjk_not_space _ Hd). by rewrite andb_false_r. }
    apply orb_false_iff. split; [|apply IH; lia].
    apply andb_false_iff. right.
    destruct (clean_leading_spaces rest) as [_ ->].
    destruct (lstrip rest) as [|e r] eqn:He; [done|].
    pose proof (clean_head (e :: r)) as Hhd.
    destruct (_clean_chinese_spacing (e :: r)) as [|e' r'] eqn:Hclean; [done|].
    simpl in Hhd. injection Hhd as ->. by apply (clean_head_no_gap e r).
  - rewrite clean_no_gap by done. cbn [chained].
    rewrite cjk_gap_clean, Hgap. cbn [andb orb]. apply IH. lia.
Qed.

(** A pass over a text without such a row closes every gap. *)
Lemma clean_closes_gaps n : forall s, length s <= n ->
  chained s = false -> has_gap (_clean_chinese_spacing s) = false.
Proof.
  induction n as [|n IH]; intros s Hn Hch.
  { destruct s; simpl in *; [done|lia]. }
  destruct s as [|c s]; [done|]. simpl in Hn. cbn [chained] in Hch.
  apply orb_false_iff in Hch as [Hhere Hch].
  destruct (cjk_gap c s) eqn:Hgap.
  - destruct (clean_gap _ _ Hgap) as (d & rest & Hr & Hd & ->).
    pose proof (lstrip_length s) as Hlen. rewrite Hr in Hlen. simpl in Hlen.
    rewrite Hr in Hhere. cbn [andb] in Hhere.
    assert (Hrest : chained rest = false).
    { rewrite (leading_spaces_lstrip s), Hr in Hch.
      apply chained_suffix in Hch. cbn [chained] in Hch.
      by apply orb_false_iff in Hch as [_ ?]. }
    cbn [has_gap]. rewrite cjk_gap_clean, Hhere.
    unfold cjk_gap at 1. cbn [leading_spaces].
    rewrite (is_cjk_not_space _ Hd), andb_false_r. cbn [orb].
    apply IH; [lia|done].
  - rewrite clean_no_gap by done. cbn [has_gap].
    rewrite cjk_gap_clean, Hgap. cbn [orb]. apply IH; [lia|done].
Qed.

(** X5. Two passes of the spacing repair close every gap between
    ideographs, whatever the text: a third pass changes nothing. *)
Theorem clean_twice_closes_all_gaps (s : str) :
  has_gap (_clean_chinese_spacing (_clean_chinese_spacing s)) = false /\
  _clean_chinese_spacing (_clean_chinese_spacing (_clean_chinese_spacing s))
  = _clean_chinese_spacing (_clean_chinese_spacing s).
Proof.
  assert (Hgap : has_gap (_clean_chinese_spacing (_clean_chinese_spacing s)) = false).
  { apply (clean_closes_gaps _ _ (Nat.le_refl _)).
    apply (clean_not_chained _ _ (Nat.le_refl _)). }
  split; [done|]. by apply clean_no_gaps.
Qed.

(** ** The white space of a formatted page *)

Lemma collapse_blanks_only n : forall s, length s <= n -> blanks_only (collapse_spaces s).
Proof.
  induction n as [|n IH]; intros s Hn.
  { destruct s; simpl in *; [constructor|lia]. }
  destruct s as [|c s]; [constructor|]. simpl in Hn.
  destruct (isspace c) eqn:Hc.
  - rewrite collapse_space by done. constructor; [done|].
    apply IH. pose proof (lstrip_length s). lia.
  - rewrite collapse_char by done. constructor; [congruence|]. apply IH. lia.
Qed.

Lemma merge_step_blanks_only merged buf ln :
  Forall blanks_only merged -> blanks_only buf ->
  Forall blanks_only (fst (merge_step (merged, buf) ln)) /\
  blanks_only (snd (merge_step (merged, buf) ln)).
Proof.
  intros Hmerged Hbuf.
  pose proof (collapse_blanks_only _ (_clean_chinese_spacing ln) (Nat.le_refl _)) as Hln.
  unfold merge_step. destruct (negb (truthy buf)); [done|].
  destruct (endswith_any buf end_punct); cbn [fst snd].
  - split; [|done]. apply Forall_app. split; [done|]. by constructor.
  - split; [done|]. apply Forall_app. split; [done|]. by constructor.
Qed.

Lemma merge_loop_blanks_only lines : forall merged buf,
  Forall blanks_only merged -> blanks_only buf ->
  Forall blanks_only (fst (fold_left merge_step lines (merged, buf))) /\
  blanks_only (snd (fold_left merge_step lines (merged, buf))).
Proof.
  induction lines as [|ln lines IH]; intros merged buf Hmerged Hbuf; [done|].
  cbn [fold_left].
  destruct (merge_step_blanks_only merged buf ln Hmerged Hbuf) as [H1 H2].
  destruct (merge_step (merged, buf) ln) as [merged' buf']. by apply IH.
Qed.

(** X6. In a formatted page the paragraphs hold no white space but single
    blanks: tabs, no-break and ideographic spaces have become blanks, and
    line feeds stand only between two paragraphs, as a pair. *)
Theorem format_whitespace_normalised (text : str) :
  exists paras,
    _format_page_text text = join [10; 10]%N paras /\
    Forall (fun p => paragraph_ok p /\ blanks_only p) paras.
Proof.
  rewrite format_page_text_join.
  destruct (truthy (strip text)); [|by exists []].
  exists (paragraphs_of text). split; [done|].
  pose proof (paragraphs_tidy text) as Htidy.
  assert (Hblank : Forall blanks_only (paragraphs_of text)).
  { unfold paragraphs_of.
    destruct (merge_loop_blanks_only (nonblank_lines (strip text)) [] [])
      as [H1 H2]; [constructor..|].
    destruct (fold_left _ _ _) as [merged buf]. cbn [fst snd] in *.
    destruct (truthy buf); [|done]. apply Forall_app. split; [done|]. by constructor. }
  induction Htidy as [|p paras Hp _ IH]; [constructor|].
  inversion Hblank; subst. constructor; [|by apply IH].
  split; [by apply tidy_paragraph_ok|done].
Qed.

(** ** The text of a recognised page *)

Lemma strip_empty_or_trimmed s : strip s = [] \/ trimmed (strip s).
Proof.
  destruct (strip s) as [|c r] eqn:Hs; [by left|]. right.
  rewrite <- Hs. apply strip_trimmed. by rewrite Hs.
Qed.

(** X7. The text either engine returns for a page has no white space at
    its start or at its end: it is empty or starts and ends with a
    character that is not white space. *)
Theorem recognised_text_is_stripped (E : Env) (ocr_engine lang : str) (img : Image E)
    (text : str) :
  recognise E ocr_engine lang img = Ok text ->
  text = [] \/ trimmed text.
Proof.
  unfold recognise, _ocr_image_to_text_paddle, _ocr_image_to_text_tesseract.
  destruct (str_eqb ocr_engine (u "paddle")).
  - destruct (_get_paddle_ocr E lang) as [ocr|e]; [|done].
    rewrite or_empty_Some. intros [= <-]. apply strip_empty_or_trimmed.
  - rewrite or_empty_Some. intros [= <-]. apply strip_empty_or_trimmed.
Qed.

Lemma recognised_text_is_stripped_witness :
  [66; 65]%N = [] \/ trimmed [66; 65]%N.
Proof.
  apply (recognised_text_is_stripped
           (mkEnv N N unit unit (fun _ => true) (fun p => p) (fun p => p)
              (fun _ _ _ => []) (fun img _ _ => [32; 66; 65; 10]%N) None
              (fun _ => []) None None)
           (u "tesseract") (u "eng") 1%N).
  vm_compute. reflexivity.
Defined.

(** ** Token removal *)

Lemma replace_empty_token (s : str) : replace s [] [] = s.
Proof.
  unfold replace. cbn [app]. induction s as [|c s IH]; [done|].
  cbn [flat_map]. by rewrite IH.
Qed.

Lemma startswith_occurs (s old : str) :
  startswith s old = true -> exists b, s = old ++ b.
Proof.
  revert s. induction old as [|p old IH]; intros s Hs; [by exists s|].
  destruct s as [|c s]; [done|]. cbn [startswith] in Hs.
  apply andb_true_iff in Hs as [Hc Hs]. apply N.eqb_eq in Hc as ->.
  destruct (IH _ Hs) as [b ->]. by exists b.
Qed.

Lemma replace_scan_absent (old : str) (s : str) :
  ~ occurs old s -> replace_scan old [] 0 s = s.
Proof.
  induction s as [|c s IH]; intros Habsent; [done|].
  cbn [replace_scan].
  destruct (startswith (c :: s) old) eqn:Hstart.
  - destruct (startswith_occurs _ _ Hstart) as [b Hb].
    exfalso. apply Habsent. exists [], b. done.
  - f_equal. apply IH. intros (a & b & ->). apply Habsent.
    exists (c :: a), b. done.
Qed.

Lemma replace_absent (s old : str) :
  old = [] \/ ~ occurs old s -> replace s old [] = s.
Proof.
  intros [->|Habsent]; [apply replace_empty_token|].
  destruct old as [|p old]; [apply replace_empty_token|].
  by apply replace_scan_absent.
Qed.

(** X8. In text-layer mode a token that is empty, or that occurs nowhere
    in the page after the spacing repair, changes nothing: with only such
    tokens the page comes out as it does with no token at all. *)
Theorem tokens_absent_change_nothing (tokens : list str) (auto_format : bool)
    (content : str) :
  Forall (fun token => token = [] \/ ~ occurs token (_clean_chinese_spacing content))
         tokens ->
  text_layer_page (Some tokens) auto_format (Some content)
  = text_layer_page None auto_format (Some content).
Proof.
  intros Hall. unfold text_layer_page.
  destruct (truthy content); [|done].
  assert (Hsame : fold_left (fun c token => replace c token []) tokens
                    (_clean_chinese_spacing content) = _clean_chinese_spacing content).
  { induction Hall as [|token tokens Htoken _ IH]; [done|].
    cbn [fold_left]. by rewrite replace_absent. }
  by rewrite Hsame.
Qed.

Lemma tokens_absent_change_nothing_witness :
  text_layer_page (Some [[]; u "页 眉"]) true (Some (u "页 眉 正文"))
  = text_layer_page None true (Some (u "页 眉 正文")).
Proof.
  apply (tokens_absent_change_nothing [[]; u "页 眉"] true (u "页 眉 正文")).
  apply Forall_cons; [by left|]. apply Forall_cons; [|apply Forall_nil].
  right. intros (a & b & Heq). vm_compute in Heq.
  destruct a as [|x [|y a]]; simpl in Heq; [discriminate Heq..|].
  destruct a as [|z [|w a]]; simpl in Heq; [discriminate Heq..|].
  destruct a as [|v a]; simpl in Heq; [discriminate Heq|].
  destruct a; discriminate Heq.
Defined.

(** ** The pages of the text layer *)


(** * Further properties of the page processor *)

(** ** What a run leaves alone *)

Lemma progress_step_keeps cb total st :
  files (progress_step cb total st) = files st /\
  dirs (progress_step cb total st) = dirs st.
Proof. by destruct cb. Qed.

Lemma worker_effects_keep E lang ocr_engine cb total (items : list (nat * Image E))
    (ran : list nat) : forall st,
  files (fold_left (task_effect (worker_effect E lang ocr_engine cb total) items) ran st)
    = files st /\
  dirs (fold_left (task_effect (worker_effect E lang ocr_engine cb total) items) ran st)
    = dirs st.
Proof.
  induction ran as [|i ran IH]; intros st; [done|]. cbn [fold_left].
  destruct (IH (task_effect (worker_effect E lang ocr_engine cb total) items st i))
    as [-> ->].
  unfold task_effect. destruct (items !! i) as [item|]; [|done].
  unfold worker_effect. destruct (recognise E ocr_engine lang (snd item)); [|done].
  apply progress_step_keeps.
Qed.

(** The store when the pool is created: the counter is reset and the page
    count announced. *)
Lemma ocr_pages_unfold E sched images lang ocr_engine max_workers cb st :
  exists ran,
    ran ≡ₚ seq 0 (length (enumerate 0 images)) /\
    _ocr_pages_in_parallel E sched images lang ocr_engine max_workers cb st =
    let st0 := match cb with
               | Some _ => mkStore (calls st ++ [(0, length images)]) 0 (dirs st) (files st)
               | None => mkStore (calls st) 0 (dirs st) (files st)
               end in
    match ThreadPoolExecutor max_workers st0 with
    | (Raise e, st1) => (Raise e, st1)
    | (Ok _, st1) =>
        let st2 := fold_left (task_effect (worker_effect E lang ocr_engine cb (length images))
                                (enumerate 0 images)) ran st1 in
        match collect (map (fun item => Some (outcome E lang ocr_engine item))
                           (enumerate 0 images)) with
        | Ok rs =>
            (Ok (map or_empty
                   (fold_left (fun res '(idx, text) => <[idx := Some text]> res) rs
                      (replicate (length images) None))), st2)
        | Raise e => (Raise e, st2)
        end
    end.
Proof.
  unfold _ocr_pages_in_parallel, bind. cbn [set_processed modify].
  rewrite notify_run. cbn [calls processed dirs files].
  set (st0 := match cb with Some _ => _ | None => _ end).
  assert (Hst0 : st0 = match cb with
                       | Some _ => mkStore (calls st ++ [(0, length images)]) 0
                                           (dirs st) (files st)
                       | None => mkStore (calls st) 0 (dirs st) (files st)
                       end) by (subst st0; by destruct cb).
  rewrite Hst0. clear Hst0 st0. cbv zeta.
  destruct (ThreadPoolExecutor max_workers _) as [[[]|e] st1] eqn:Hpool.
  - destruct (executor_map_spec _ _ _
                (worker_splits E lang ocr_engine cb (length images))
                (enumerate 0 images) sched st1) as (ran & Hperm & Hmap).
    exists ran. split; [done|]. rewrite Hmap.
    by destruct (collect _).
  - exists (seq 0 (length (enumerate 0 images))). done.
Qed.

Lemma ThreadPoolExecutor_keeps max_workers st r st' :
  ThreadPoolExecutor max_workers st = (r, st') -> st' = st.
Proof.
  unfold ThreadPoolExecutor. destruct max_workers as [w|]; [|by intros [= _ <-]].
  destruct (w <=? 0)%Z; by intros [= _ <-].
Qed.

Lemma ocr_pages_keep_files E sched images lang ocr_engine max_workers cb st r st' :
  _ocr_pages_in_parallel E sched images lang ocr_engine max_workers cb st = (r, st') ->
  files st' = files st /\ dirs st' = dirs st.
Proof.
  destruct (ocr_pages_unfold E sched images lang ocr_engine max_workers cb st)
    as (ran & _ & ->). cbv zeta.
  destruct (ThreadPoolExecutor max_workers _) as [[[]|e] st1] eqn:Hpool;
    apply ThreadPoolExecutor_keeps in Hpool; subst st1.
  - pose proof (worker_effects_keep E lang ocr_engine cb (length images)
                  (enumerate 0 images) ran) as Hkeep.
    destruct (collect _); intros [= _ <-];
      destruct (Hkeep (match cb with
                       | Some _ => mkStore (calls st ++ [(0, length images)]) 0
                                           (dirs st) (files st)
                       | None => mkStore (calls st) 0 (dirs st) (files st)
                       end)) as [-> ->]; by destruct cb.
  - intros [= _ <-]. by destruct cb.
Qed.

(** ** When a page fails *)

Lemma collect_first_failure E lang ocr_engine front texts img back e :
  recognised E lang ocr_engine front texts ->
  recognise E ocr_engine lang img = Raise e ->
  forall k,
    collect (map (fun item => Some (outcome E lang ocr_engine item))
                 (enumerate k (front ++ img :: back))) = Raise e.
Proof.
  intros Hrec Himg.
  induction Hrec as [|img' text front texts Himg' Hrec IH]; intros k.
  - cbn [app enumerate map collect]. unfold outcome. cbn [snd]. by rewrite Himg.
  - cbn [app enumerate map collect]. unfold outcome at 1. cbn [snd fst].
    by rewrite Himg', IH.
Qed.

Lemma ocr_pages_first_failure (E : Env) (sched : list nat)
    (front back : list (Image E)) (img : Image E) (texts : list str) (e : exn)
    (lang ocr_engine : str) (max_workers : option Z) (cb : option Callable) (st : Store) :
  workers_ok max_workers ->
  recognised E lang ocr_engine front texts ->
  recognise E ocr_engine lang img = Raise e ->
  exists st',
    _ocr_pages_in_parallel E sched (front ++ img :: back) lang ocr_engine max_workers cb st
      = (Raise e, st') /\
    files st' = files st.
Proof.
  intros Hw Hrec Himg.
  destruct (_ocr_pages_in_parallel E sched (front ++ img :: back) lang ocr_engine
              max_workers cb st) as [r st'] eqn:Hrun.
  exists st'. split; [|by apply ocr_pages_keep_files in Hrun as [? _]].
  f_equal. revert Hrun.
  destruct (ocr_pages_unfold E sched (front ++ img :: back) lang ocr_engine
              max_workers cb st) as (ran & _ & ->). cbv zeta.
  destruct max_workers as [w|]; cbn [ThreadPoolExecutor].
  - simpl in Hw. destruct (w <=? 0)%Z eqn:Hle; [lia|]. cbn [ret].
    rewrite (collect_first_failure _ _ _ _ _ _ _ _ Hrec Himg). by intros [= <- _].
  - cbn [ret]. rewrite (collect_first_failure _ _ _ _ _ _ _ _ Hrec Himg).
    by intros [= <- _].
Qed.



(** X11. A bound on the workers of zero or less makes the processor
    raise [ValueError] before any page is looked at: a callback has by
    then received the announcement [(0, N)] and receives nothing more. *)
Theorem worker_bound_must_be_positive (E : Env) (sched : list nat)
    (images : list (Image E)) (lang ocr_engine : str) (w : Z) (cb : option Callable)
    (st : Store) :
  (w <= 0)%Z ->
  exists st',
    _ocr_pages_in_parallel E sched images lang ocr_engine (Some w) cb st
      = (Raise (ValueError (u "max_workers must be greater than 0")), st') /\
    calls st' = calls st ++ match cb with
                            | Some _ => [(0, length images)]
                            | None => []
                            end /\
    files st' = files st.
Proof.
  intros Hw.
  destruct (ocr_pages_unfold E sched images lang ocr_engine (Some w) cb st)
    as (ran & _ & ->). cbv zeta. cbn [ThreadPoolExecutor].
  destruct (w <=? 0)%Z eqn:Hle; [|lia]. cbn [raise].
  eexists. split; [reflexivity|]. destruct cb; cbn [calls files]; [done|].
  by rewrite app_nil_r.
Qed.

Lemma worker_bound_must_be_positive_witness :
  exists st',
    _ocr_pages_in_parallel sample_env [] [1; 2; 3]%N (u "eng") (u "tesseract")
      (Some 0%Z) (Some tt) empty_store
      = (Raise (ValueError (u "max_workers must be greater than 0")), st') /\
    calls st' = calls empty_store ++ [(0, 3)] /\
    files st' = files empty_store.
Proof.
  apply (worker_bound_must_be_positive sample_env [] [1; 2; 3]%N (u "eng")
           (u "tesseract") 0%Z (Some tt) empty_store).
  lia.
Defined.

(** Where the calls of a returning run with a callback end up. *)
Lemma page_run_calls (E : Env) (cb : option Callable) (N : nat) (st st' : Store) :
  page_run E cb N st st' ->
  calls st' = calls st ++ match cb with
                          | Some _ => (0, N) :: count_up N 0 N
                          | None => []
                          end.
Proof.
  intros Hrun.
  destruct Hrun as [sched images lang ocr_engine max_workers texts st st' Hrun
                   |pdf_path remove_tokens auto_format texts st st' Hrun
                   |open_pdf pdf_path output_path dpi auto_format font_name font_size_pt
                      path st st' Hfitz Hrun].
  - apply ocr_pages_Ok_inv in Hrun as [_ ->]. destruct cb; cbn [after_pages calls]; [done|].
    by rewrite app_nil_r.
  - rewrite extract_text_layer_run in Hrun. by injection Hrun as _ <-.
  - destruct (convert_pdf_to_docx_mac_vision_Ok_inv _ _ _ _ _ _ _ _ _ _ _ Hrun)
      as (open_pdf' & recognize & Hfitz' & Hocrmac & Hex).
    rewrite (convert_pdf_to_docx_mac_vision_run _ _ _ _ _ _ _ _ _ _ _ Hfitz' Hocrmac Hex)
      in Hrun.
    injection Hrun as _ <-. simplify_eq. done.
Qed.

(** X12. Without a callback nothing is reported: a run over the pages, in
    any of the three ways, leaves the record of calls as it found it. *)
Theorem no_callback_no_calls (E : Env) (N : nat) (st st' : Store) :
  page_run E None N st st' -> calls st' = calls st.
Proof. intros Hrun. rewrite (page_run_calls _ _ _ _ _ Hrun). apply app_nil_r. Qed.

Lemma no_callback_no_calls_witness :
  calls (snd (_extract_text_layer_pages sample_env (u "in.pdf") None None true
                (mkStore [(5, 9)] 0 [] [])))
  = calls (mkStore [(5, 9)] 0 [] []).
Proof.
  apply (no_callback_no_calls sample_env 3 (mkStore [(5, 9)] 0 [] [])).
  eapply (run_text_layer sample_env None (u "in.pdf") None true).
  vm_compute. reflexivity.
Defined.

(** ** The choice of the engine *)

(** X13. Any engine name other than [paddle] selects Tesseract: the
    processor then returns, for every schedule and every valid bound and
    whether or not PaddleOCR is installed, the stripped output of
    Tesseract (called with [--psm 3]) for each page, in page order. *)
Theorem other_engine_names_use_tesseract (E : Env) (sched : list nat)
    (images : list (Image E)) (lang ocr_engine : str) (max_workers : option Z)
    (cb : option Callable) (st : Store) :
  ocr_engine <> u "paddle" ->
  workers_ok max_workers ->
  exists st',
    _ocr_pages_in_parallel E sched images lang ocr_engine max_workers cb st
    = (Ok (map (fun img => strip (image_to_string E img lang (u "--psm 3"))) images), st').
Proof.
  intros Hengine Hw. eexists. apply ocr_pages_run; [done|].
  unfold recognised. apply Forall2_fmap_r, Forall_Forall2_diag, Forall_forall.
  intros img _. unfold recognise, str_eqb.
  rewrite bool_decide_eq_false_2 by done.
  unfold _ocr_image_to_text_tesseract. by rewrite or_empty_Some.
Qed.

Lemma other_engine_names_use_tesseract_witness :
  exists st',
    _ocr_pages_in_parallel sample_env [1] [1; 2]%N (u "eng") (u "Paddle") None None
      empty_store
    = (Ok (map (fun img => strip (image_to_string sample_env img (u "eng") (u "--psm 3")))
              [1; 2]%N), st').
Proof.
  apply (other_engine_names_use_tesseract sample_env [1] [1; 2]%N (u "eng") (u "Paddle")
           None None empty_store).
  - vm_compute. discriminate.
  - exact I.
Defined.

(** X14. With the engine [paddle] and PaddleOCR not installed, the
    processor raises [RuntimeError] as soon as there is a page, and
    returns the empty list when there is none: the engine is asked for
    per page only. *)
Theorem paddle_missing (E : Env) (sched : list nat) (images : list (Image E))
    (lang : str) (max_workers : option Z) (cb : option Callable) (st : Store) :
  PaddleOCR E = None ->
  workers_ok max_workers ->
  exists st',
    _ocr_pages_in_parallel E sched images lang (u "paddle") max_workers cb st
    = (match images with
       | [] => Ok []
       | _ :: _ => Raise (RuntimeError (u "未安装 PaddleOCR，请先安装 paddleocr 和 paddlepaddle 再使用 ocr_engine='paddle'"))
       end, st').
Proof.
  intros Hpaddle Hw. destruct images as [|img images].
  - eexists. apply ocr_pages_run; [done|constructor].
  - destruct (ocr_pages_first_failure E sched [] images img []
                (RuntimeError (u "未安装 PaddleOCR，请先安装 paddleocr 和 paddlepaddle 再使用 ocr_engine='paddle'"))
                lang (u "paddle") max_workers cb st Hw) as (st' & Hrun & _);
      [constructor| |by exists st'].
    unfold recognise, str_eqb. rewrite bool_decide_eq_true_2 by done.
    unfold _ocr_image_to_text_paddle, _get_paddle_ocr. by rewrite Hpaddle.
Qed.

Lemma paddle_missing_witness :
  exists st',
    _ocr_pages_in_parallel sample_env [] [] (u "ch") (u "paddle") (Some 2%Z) (Some tt)
      empty_store
    = (Ok [], st').
Proof.
  apply (paddle_missing sample_env [] [] (u "ch") (Some 2%Z) (Some tt) empty_store).
  - reflexivity.
  - simpl. lia.
Defined.

(** * Further properties of the conversions *)

(** ** Errors *)

(** X15. When the input file does not exist, each of the three
    conversions (the Vision one with its imports in place) raises
    [FileNotFoundError] with the path in its message and does nothing
    else: no directory is made, nothing is reported, nothing is saved. *)
Theorem missing_input_raises (E : Env) (r : request) (st : Store) :
  path_exists E (input_path r) = false ->
  imports_ready E r ->
  convert E r st = (Raise (FileNotFoundError (u "PDF 文件不存在: " ++ input_path r)), st).
Proof.
  intros Hex Hready.
  destruct r; cbn [convert input_path imports_ready] in *.
  - unfold convert_pdf_to_docx. by rewrite Hex.
  - unfold extract_pdf_text_to_docx. by rewrite Hex.
  - destruct Hready as [[open_pdf Hfitz] [recognize Hocrmac]].
    unfold convert_pdf_to_docx_mac_vision. by rewrite Hfitz, Hocrmac, Hex.
Qed.

Lemma missing_input_raises_witness :
  convert (mkEnv N N unit unit (fun _ => false) (fun p => p) (fun p => p)
             (fun _ _ _ => []) (fun _ _ _ => []) None (fun _ => []) None None)
          (ByTextLayer (u "none.pdf") (u "out") None (Some tt) true (u "SimSun") 12)
          empty_store
  = (Raise (FileNotFoundError (u "PDF 文件不存在: " ++ u "none.pdf")), empty_store).
Proof.
  apply (missing_input_raises
           (mkEnv N N unit unit (fun _ => false) (fun p => p) (fun p => p)
              (fun _ _ _ => []) (fun _ _ _ => []) None (fun _ => []) None None)
           (ByTextLayer (u "none.pdf") (u "out") None (Some tt) true (u "SimSun") 12)
           empty_store).
  - reflexivity.
  - exact I.
Defined.

(** X16. The Vision conversion looks for its imports before anything
    else: without PyMuPDF or without ocrmac it raises [RuntimeError] and
    leaves the store as it is, whether or not the input file exists. *)
Theorem vision_needs_its_imports (E : Env) (pdf_path output_path : str) (dpi : Z)
    (cb : option Callable) (auto_format : bool) (font_name : str) (font_size_pt : Z)
    (st : Store) :
  fitz E = None \/ ocrmac E = None ->
  exists msg,
    convert_pdf_to_docx_mac_vision E pdf_path output_path dpi cb auto_format
      font_name font_size_pt st = (Raise (RuntimeError msg), st).
Proof.
  intros Hmissing. unfold convert_pdf_to_docx_mac_vision.
  destruct (fitz E) as [open_pdf|]; [|by eexists].
  destruct Hmissing as [?| ->]; [done|]. by eexists.
Qed.

Lemma vision_needs_its_imports_witness :
  exists msg,
    convert_pdf_to_docx_mac_vision
      (mkEnv N N unit unit (fun _ => false) (fun p => p) (fun p => p)
         (fun _ _ _ => []) (fun _ _ _ => []) None (fun _ => []) None None)
      (u "in.pdf") (u "out") 300 None true (u "SimSun") 12 empty_store
    = (Raise (RuntimeError msg), empty_store).
Proof.
  apply (vision_needs_its_imports
           (mkEnv N N unit unit (fun _ => false) (fun p => p) (fun p => p)
              (fun _ _ _ => []) (fun _ _ _ => []) None (fun _ => []) None None)).
  by left.
Defined.

(** X17. The OCR conversion of an existing file that gives no page image
    raises [ValueError]; by then it has made the output directory, and it
    has reported nothing and saved nothing. *)
Theorem ocr_without_pages_raises (E : Env) (sched : list nat)
    (pdf_path output_path lang : str) (dpi : Z) (poppler_path : option str)
    (ocr_engine : str) (max_workers : option Z) (cb : option Callable)
    (auto_format : bool) (font_name : str) (font_size_pt : Z) (st : Store) :
  path_exists E pdf_path = true ->
  convert_from_path E pdf_path dpi poppler_path = [] ->
  convert_pdf_to_docx E sched pdf_path output_path lang dpi poppler_path ocr_engine
    max_workers cb auto_format font_name font_size_pt st
  = (Raise (ValueError (u "PDF 转换为图片失败，未得到任何页面。")),
     mkStore (calls st) (processed st) (dirs st ++ [output_dir_of E output_path])
             (files st)).
Proof.
  intros Hex Himages. unfold convert_pdf_to_docx. rewrite Hex. cbn [negb].
  unfold bind at 1. cbn [makedirs modify]. by rewrite Himages.
Qed.

Lemma ocr_without_pages_raises_witness :
  convert_pdf_to_docx
    (mkEnv N N unit unit (fun _ => true) (fun p => u "/work/" ++ p) (fun _ => [])
       (fun _ _ _ => []) (fun _ _ _ => []) None (fun _ => []) None None)
    [] (u "in.pdf") (u "out") (u "eng") 300 None (u "tesseract") None (Some tt) true
    (u "SimSun") 12 empty_store
  = (Raise (ValueError (u "PDF 转换为图片失败，未得到任何页面。")),
     mkStore [] 0 [u "."] []).
Proof.
  apply (ocr_without_pages_raises
           (mkEnv N N unit unit (fun _ => true) (fun p => u "/work/" ++ p) (fun _ => [])
              (fun _ _ _ => []) (fun _ _ _ => []) None (fun _ => []) None None)
           [] (u "in.pdf") (u "out") (u "eng") 300 None (u "tesseract") None (Some tt)
           true (u "SimSun") 12 empty_store); reflexivity.
Defined.

(** X18. A conversion that raises has saved no document, in any of the
    three modes and at whatever point it fails. *)
Theorem failed_conversion_saves_nothing (E : Env) (r : request) (st : Store) (e : exn)
    (st' : Store) :
  convert E r st = (Raise e, st') -> files st' = files st.
Proof.
  destruct r as [sched pdf_path output_path lang dpi poppler_path ocr_engine max_workers
                   cb auto_format font_name font_size_pt
                |pdf_path output_path remove_tokens cb auto_format font_name font_size_pt
                |pdf_path output_path dpi cb auto_format font_name font_size_pt];
    cbn [convert].
  - unfold convert_pdf_to_docx.
    destruct (path_exists E pdf_path); cbn [negb]; [|by intros [= _ <-]].
    unfold bind at 1. cbn [makedirs modify].
    destruct (convert_from_path E pdf_path dpi poppler_path) as [|img images];
      [by intros [= _ <-]|].
    unfold bind at 1.
    destruct (_ocr_pages_in_parallel _ _ _ _ _ _ _ _) as [[texts|e'] st1] eqn:Hrun.
    + unfold bind, save, modify, ret. done.
    + apply ocr_pages_keep_files in Hrun as [Hfiles _]. by intros [= _ <-].
  - destruct (path_exists E pdf_path) eqn:Hex.
    + by rewrite extract_pdf_text_to_docx_run.
    + destruct (extract_pdf_text_to_docx_missing E pdf_path output_path remove_tokens
                  cb auto_format font_name font_size_pt st Hex) as [e' ->].
      by intros [= _ <-].
  - unfold convert_pdf_to_docx_mac_vision.
    destruct (fitz E) as [open_pdf|] eqn:Hfitz; [|by intros [= _ <-]].
    destruct (ocrmac E) as [recognize|] eqn:Hocrmac; [|by intros [= _ <-]].
    destruct (path_exists E pdf_path) eqn:Hex; cbn [negb]; [|by intros [= _ <-]].
    pose proof (convert_pdf_to_docx_mac_vision_run E pdf_path output_path dpi cb
                  auto_format font_name font_size_pt st open_pdf recognize
                  Hfitz Hocrmac Hex) as Hrun.
    unfold convert_pdf_to_docx_mac_vision in Hrun.
    rewrite Hfitz, Hocrmac, Hex in Hrun. cbn [negb] in Hrun. by rewrite Hrun.
Qed.

Lemma failed_conversion_saves_nothing_witness :
  files (snd (convert sample_env
                (ByOcr [1; 0] (u "in.pdf") (u "out") (u "ch") 300 None (u "paddle")
                   None (Some tt) true (u "SimSun") 12)
                (mkStore [] 0 [] [(u "old.docx", new_Document)])))
  = files (mkStore [] 0 [] [(u "old.docx", new_Document)]).
Proof.
  eapply (failed_conversion_saves_nothing sample_env
            (ByOcr [1; 0] (u "in.pdf") (u "out") (u "ch") 300 None (u "paddle")
               None (Some tt) true (u "SimSun") 12)
            (mkStore [] 0 [] [(u "old.docx", new_Document)])).
  vm_compute. reflexivity.
Defined.

(** ** What a conversion that returns has done *)

Lemma convert_pdf_to_docx_run E sched pdf_path output_path lang dpi poppler_path
    ocr_engine max_workers cb auto_format font_name font_size_pt st raw_texts :
  path_exists E pdf_path = true ->
  convert_from_path E pdf_path dpi poppler_path <> [] ->
  workers_ok max_workers ->
  recognised E lang ocr_engine (convert_from_path E pdf_path dpi poppler_path) raw_texts ->
  convert_pdf_to_docx E sched pdf_path output_path lang dpi poppler_path ocr_engine
    max_workers cb auto_format font_name font_size_pt st
  = (Ok (abspath E (docx_path output_path)),
     after_conversion E
       (after_pages cb (length (convert_from_path E pdf_path dpi poppler_path)) st)
       output_path
       (document_of font_name font_size_pt (formatted auto_format raw_texts)) st).
Proof.
  intros Hex Hne Hw Hrec. unfold convert_pdf_to_docx. rewrite Hex. cbn [negb].
  unfold bind at 1. cbn [makedirs modify].
  destruct (convert_from_path E pdf_path dpi poppler_path) as [|img images]; [done|].
  unfold bind at 1. rewrite (ocr_pages_run _ _ _ _ _ _ _ _ _ Hw Hrec).
  unfold bind, save, modify, ret, after_conversion, after_pages. by destruct cb.
Qed.

Lemma convert_pdf_to_docx_Ok_pre E sched pdf_path output_path lang dpi poppler_path
    ocr_engine max_workers cb auto_format font_name font_size_pt st path st' :
  convert_pdf_to_docx E sched pdf_path output_path lang dpi poppler_path ocr_engine
    max_workers cb auto_format font_name font_size_pt st = (Ok path, st') ->
  path_exists E pdf_path = true.
Proof.
  unfold convert_pdf_to_docx. by destruct (path_exists E pdf_path).
Qed.

(** X19. The order in which the workers complete and the bound on their
    number do not show in the outcome: an OCR conversion that returns under
    one schedule and bound returns the same path and leaves the same store,
    with the same document, under any other schedule and valid bound. *)
Theorem schedule_does_not_show (E : Env) (sched sched' : list nat)
    (pdf_path output_path lang : str) (dpi : Z) (poppler_path : option str)
    (ocr_engine : str) (max_workers max_workers' : option Z) (cb : option Callable)
    (auto_format : bool) (font_name : str) (font_size_pt : Z) (st : Store)
    (path : str) (st' : Store) :
  convert_pdf_to_docx E sched pdf_path output_path lang dpi poppler_path ocr_engine
    max_workers cb auto_format font_name font_size_pt st = (Ok path, st') ->
  workers_ok max_workers' ->
  convert_pdf_to_docx E sched' pdf_path output_path lang dpi poppler_path ocr_engine
    max_workers' cb auto_format font_name font_size_pt st = (Ok path, st').
Proof.
  intros Hrun Hw'.
  pose proof (convert_pdf_to_docx_Ok_pre _ _ _ _ _ _ _ _ _ _ _ _ _ _ _ _ Hrun) as Hex.
  apply convert_pdf_to_docx_Ok_inv in Hrun as (raw & Hne & Hrec & -> & ->).
  by apply convert_pdf_to_docx_run.
Qed.

Lemma schedule_does_not_show_witness :
  convert_pdf_to_docx sample_env [0; 1; 2] (u "in.pdf") (u "out") (u "eng") 300 None
    (u "tesseract") None (Some tt) true (u "SimSun") 12 empty_store
  = (Ok (u "/work/out.docx"),
     snd (convert_pdf_to_docx sample_env [2; 1; 0] (u "in.pdf") (u "out") (u "eng") 300
            None (u "tesseract") (Some 1%Z) (Some tt) true (u "SimSun") 12 empty_store)).
Proof.
  apply (schedule_does_not_show sample_env [2; 1; 0] [0; 1; 2] (u "in.pdf") (u "out")
           (u "eng") 300 None (u "tesseract") (Some 1%Z) None (Some tt) true
           (u "SimSun") 12 empty_store).
  - vm_compute. reflexivity.
  - exact I.
Defined.

Lemma convert_Ok_store (E : Env) (r : request) (st : Store) (path : str) (st' : Store) :
  convert E r st = (Ok path, st') ->
  exists doc,
    dirs st' = dirs st ++ [output_dir_of E (requested_path r)] /\
    files st' = files st ++ [(docx_path (requested_path r), doc)] /\
    normal_font doc = Some (fst (requested_font r)) /\
    east_asia_font doc = Some (fst (requested_font r)) /\
    normal_size_pt doc = Some (snd (requested_font r)).
Proof.
  destruct r as [sched pdf_path output_path lang dpi poppler_path ocr_engine max_workers
                   cb auto_format font_name font_size_pt
                |pdf_path output_path remove_tokens cb auto_format font_name font_size_pt
                |pdf_path output_path dpi cb auto_format font_name font_size_pt];
    cbn [convert requested_path requested_font fst snd]; intros Hrun.
  - apply convert_pdf_to_docx_Ok_inv in Hrun as (raw & _ & _ & _ & ->).
    eexists. cbn [after_conversion dirs files]. split_and!; [done..| | |];
      by rewrite document_of_body.
  - destruct (path_exists E pdf_path) eqn:Hex.
    + rewrite extract_pdf_text_to_docx_run in Hrun by done. injection Hrun as _ <-.
      eexists. cbn [after_conversion dirs files]. split_and!; [done..| | |];
        by rewrite document_of_body.
    + destruct (extract_pdf_text_to_docx_missing E pdf_path output_path remove_tokens
                  cb auto_format font_name font_size_pt st Hex) as [e He].
      congruence.
  - destruct (convert_pdf_to_docx_mac_vision_Ok_inv _ _ _ _ _ _ _ _ _ _ _ Hrun)
      as (open_pdf & recognize & Hfitz & Hocrmac & Hex).
    rewrite (convert_pdf_to_docx_mac_vision_run _ _ _ _ _ _ _ _ _ _ _ Hfitz Hocrmac Hex)
      in Hrun.
    injection Hrun as _ <-.
    eexists. cbn [after_conversion dirs files]. split_and!; [done..| | |];
      by rewrite document_of_body.
Qed.

(** X20. The document a conversion saves carries the requested font as
    the font of its Normal style both for Latin and for East Asian text,
    and the requested size. *)
Theorem saved_document_has_the_font (E : Env) (r : request) (st : Store) (path : str)
    (st' : Store) :
  convert E r st = (Ok path, st') ->
  exists saved doc,
    list.last (files st') = Some (saved, doc) /\
    normal_font doc = Some (fst (requested_font r)) /\
    east_asia_font doc = Some (fst (requested_font r)) /\
    normal_size_pt doc = Some (snd (requested_font r)).
Proof.
  intros Hrun.
  destruct (convert_Ok_store _ _ _ _ _ Hrun) as (doc & _ & Hfiles & Hfont).
  exists (docx_path (requested_path r)), doc. split; [|done].
  by rewrite Hfiles, last_snoc.
Qed.

Lemma saved_document_has_the_font_witness :
  exists saved doc,
    list.last (files (snd (convert sample_env sample_text_request empty_store)))
      = Some (saved, doc) /\
    normal_font doc = Some (u "SimSun") /\
    east_asia_font doc = Some (u "SimSun") /\
    normal_size_pt doc = Some 12%Z.
Proof.
  apply (saved_document_has_the_font sample_env sample_text_request empty_store
           (u "/work/out.DOCX")).
  vm_compute. reflexivity.
Defined.



(** ** The extension, once more *)

(** X22. The path a document is saved at always ends with [.docx] in
    some letter case, and the suffix is never added twice: the rule
    applied to its own result changes nothing. *)
Theorem docx_path_idempotent (p : str) :
  ends_with_docx_any_case (docx_path p) = true /\
  docx_path (docx_path p) = docx_path p.
Proof.
  assert (Hends : ends_with_docx_any_case (docx_path p) = true).
  { rewrite docx_path_any_case.
    destruct (ends_with_docx_any_case p) eqn:Hp; [done|].
    unfold ends_with_docx_any_case. rewrite rev_app_distr.
    change (rev (u ".docx")) with [120; 99; 111; 100; 46]%N. done. }
  split; [done|]. by rewrite (docx_path_any_case (docx_path p)), Hends.
Qed.

(** * The progress bar and the table of instances *)

(** ** The bar of the command line *)

Lemma pbar_after_count_up (total k n : nat) (bar : Main.tqdm) :
  Main.pbar_after (count_up total k n) (Some bar)
  = Some (Main.mk_tqdm (Main.total bar) (Main.n bar + n)).
Proof.
  unfold Main.pbar_after, count_up. revert k bar.
  induction n as [|n IH]; intros k bar.
  - destruct bar. simpl. by rewrite Nat.add_0_r.
  - cbn [seq map fold_left]. unfold Main.progress_callback at 2. cbn [fst snd].
    rewrite IH. unfold Main.update. cbn [Main.total Main.n]. do 2 f_equal. lia.
Qed.

(** X23. Driven by a run over [N] pages, the progress bar of the command
    line is made at the first call with the total [N] and is moved on by
    one at every call, the announcement [(0, N)] included: when the run
    returns the bar stands at [N + 1] of [N]. *)
Theorem command_line_bar_ends_one_past (E : Env) (cb : Callable) (N : nat)
    (st st' : Store) :
  page_run E (Some cb) N st st' ->
  exists log,
    calls st' = calls st ++ log /\
    Main.pbar_after log None = Some (Main.mk_tqdm N (N + 1)).
Proof.
  intros Hrun. exists ((0, N) :: count_up N 0 N).
  split; [exact (page_run_calls _ _ _ _ _ Hrun)|].
  unfold Main.pbar_after. cbn [fold_left]. unfold Main.progress_callback at 2.
  cbn [fst snd]. fold (Main.pbar_after (count_up N 0 N)).
  rewrite pbar_after_count_up. unfold Main.update. cbn [Main.total Main.n].
  do 2 f_equal. lia.
Qed.

Lemma command_line_bar_ends_one_past_witness :
  exists log,
    calls (snd (_extract_text_layer_pages sample_env (u "in.pdf") None (Some tt) true
                  empty_store))
      = calls empty_store ++ log /\
    Main.pbar_after log None = Some (Main.mk_tqdm 3 (3 + 1)).
Proof.
  apply (command_line_bar_ends_one_past sample_env tt 3 empty_store).
  eapply (run_text_layer sample_env (Some tt) (u "in.pdf") None true).
  vm_compute. reflexivity.
Defined.

(** ** The instances of PaddleOCR *)

Lemma get_paddle_ocr_ok (E : Env) (lang : str) (t : PaddleCache.Table E) :
  PaddleCache.table_ok E t ->
  PaddleCache.table_ok E (snd (PaddleCache._get_paddle_ocr E lang t)) /\
  fst (PaddleCache._get_paddle_ocr E lang t) = _get_paddle_ocr E lang /\
  (forall make, PaddleOCR E = Some make ->
     PaddleCache._paddle_ocr_instances E (snd (PaddleCache._get_paddle_ocr E lang t)) !! lang
       = Some (make lang) /\
     forall lang', lang' ∈ PaddleCache.built E (snd (PaddleCache._get_paddle_ocr E lang t))
                   <-> lang' ∈ PaddleCache.built E t \/ lang' = lang).
Proof.
  intros Hok. pose proof Hok as (Hinst & Hnd & Hbuilt).
  unfold PaddleCache._get_paddle_ocr, _get_paddle_ocr.
  destruct (PaddleOCR E) as [make|] eqn:Hpaddle; [|by cbn [fst snd]].
  destruct (PaddleCache._paddle_ocr_instances E t !! lang) as [ocr|] eqn:Hlang.
  - destruct (Hinst _ _ Hlang) as (make' & [= <-] & ->).
    cbn [fst snd]. split_and!; [done..|].
    intros make' [= <-]. split; [done|].
    intros lang'. split; [by left|]. intros [?| ->]; [done|].
    apply Hbuilt. by rewrite Hlang.
  - unfold PaddleCache.table_ok.
    cbn [fst snd PaddleCache._paddle_ocr_instances PaddleCache.built].
    split_and!.
    + intros lang' ocr. destruct (decide (lang = lang')) as [<-|Hne].
      * rewrite stdpp.fin_maps.lookup_insert_eq. intros [= <-]. by exists make.
      * rewrite stdpp.fin_maps.lookup_insert_ne by done. intros Hocr.
        destruct (Hinst _ _ Hocr) as (make' & Hmake & ->).
        exists make'. split; [congruence|done].
    + apply list.NoDup_app.
      split_and!; [done| |apply NoDup_singleton].
      intros lang' Hin ->%list_elem_of_singleton.
      apply Hbuilt in Hin as [ocr Hocr]. congruence.
    + intros lang'. rewrite elem_of_app, list_elem_of_singleton.
      destruct (decide (lang = lang')) as [<-|Hne].
      * rewrite stdpp.fin_maps.lookup_insert_eq. split; [by eexists|by right].
      * rewrite stdpp.fin_maps.lookup_insert_ne by done. rewrite <- Hbuilt.
        split; [intros [?|?]; [done|congruence]|by left].
    + done.
    + intros make' [= <-]. split; [apply stdpp.fin_maps.lookup_insert_eq|].
      intros lang'. by rewrite elem_of_app, list_elem_of_singleton.
Qed.

Lemma empty_table_ok (E : Env) : PaddleCache.table_ok E (PaddleCache.empty_table E).
Proof.
  split_and!.
  - intros lang ocr. cbn. by rewrite stdpp.fin_maps.lookup_empty.
  - constructor.
  - intros lang. cbn. rewrite stdpp.fin_maps.lookup_empty. split.
    + by intros ?%elem_of_nil.
    + by intros [? ?].
Qed.



Lemma get_all_ok (E : Env) (make : str -> PaddleCache.instance E) (langs : list str) :
  PaddleOCR E = Some make ->
  forall t, PaddleCache.table_ok E t ->
    PaddleCache.table_ok E (PaddleCache.get_all E langs t) /\
    (forall lang, lang ∈ PaddleCache.built E (PaddleCache.get_all E langs t)
                  <-> lang ∈ PaddleCache.built E t \/ lang ∈ langs) /\
    (forall lang, lang ∈ langs ->
       PaddleCache._paddle_ocr_instances E (PaddleCache.get_all E langs t) !! lang
         = Some (make lang)).
Proof.
  intros Hpaddle. induction langs as [|lang langs IH]; intros t Hok.
  - cbn [PaddleCache.get_all]. split_and!; [done| |by intros ? ?%elem_of_nil].
    intros lang. rewrite elem_of_nil. naive_solver.
  - cbn [PaddleCache.get_all].
    destruct (get_paddle_ocr_ok E lang t Hok) as (Hok1 & _ & Hafter).
    destruct (Hafter make Hpaddle) as [Hlang Hbuilt1].
    destruct (IH _ Hok1) as (Hok2 & Hbuilt2 & Hinst2).
    split_and!; [done| |].
    + intros lang'. rewrite Hbuilt2, Hbuilt1, elem_of_cons. naive_solver.
    + intros lang' [->|Hin]%elem_of_cons; [|by apply Hinst2].
      destruct Hok2 as (Hinst & _ & Hb).
      assert (Hin : lang ∈ PaddleCache.built E
                      (PaddleCache.get_all E langs
                         (snd (PaddleCache._get_paddle_ocr E lang t)))).
      { apply Hbuilt2. left. apply Hbuilt1. by right. }
      apply Hb in Hin as [ocr Hocr]. rewrite Hocr.
      destruct (Hinst _ _ Hocr) as (make' & Hmake & ->). congruence.
Qed.

(** X25. Called one after the other for any sequence of languages, with
    PaddleOCR installed and the table empty at the start,
    [_get_paddle_ocr] builds an instance once for each language of the
    sequence and for no other, and the table then holds the instance of
    each of them. *)
Theorem paddle_instances_built_once (E : Env) (make : str -> PaddleCache.instance E)
    (langs : list str) :
  PaddleOCR E = Some make ->
  let t := PaddleCache.get_all E langs (PaddleCache.empty_table E) in
  NoDup (PaddleCache.built E t) /\
  (forall lang, lang ∈ PaddleCache.built E t <-> lang ∈ langs) /\
  (forall lang, lang ∈ langs ->
     PaddleCache._paddle_ocr_instances E t !! lang = Some (make lang)).
Proof.
  intros Hpaddle t. subst t.
  destruct (get_all_ok E make langs Hpaddle _ (empty_table_ok E))
    as ((_ & Hnd & _) & Hbuilt & Hinst).
  split_and!; [done| |done].
  intros lang. rewrite (Hbuilt lang). cbn. rewrite elem_of_nil. naive_solver.
Qed.

Lemma paddle_instances_built_once_witness :
  NoDup (PaddleCache.built sample_paddle_env
           (PaddleCache.get_all sample_paddle_env [u "ch"; u "en"; u "ch"]
              (PaddleCache.empty_table sample_paddle_env))) /\
  (forall lang,
     lang ∈ PaddleCache.built sample_paddle_env
              (PaddleCache.get_all sample_paddle_env [u "ch"; u "en"; u "ch"]
                 (PaddleCache.empty_table sample_paddle_env))
     <-> lang ∈ [u "ch"; u "en"; u "ch"]) /\
  (forall lang, lang ∈ [u "ch"; u "en"; u "ch"] ->
     PaddleCache._paddle_ocr_instances sample_paddle_env
       (PaddleCache.get_all sample_paddle_env [u "ch"; u "en"; u "ch"]
          (PaddleCache.empty_table sample_paddle_env)) !! lang
     = Some (fun _ => [[(tt, (lang, tt))]])).
Proof.
  apply (paddle_instances_built_once sample_paddle_env
           (fun lang _ => [[(tt, (lang, tt))]]) [u "ch"; u "en"; u "ch"]).
  reflexivity.
Defined.

(** * Paragraph breaks and the ends of a formatted page *)




Lemma trimmed_strip s : trimmed s -> strip s = s.
Proof.
  intros [(c & Hhd & Hc) (z & Hlast & Hz)].
  assert (Hl : forall t : str, (exists d, head t = Some d /\ isspace d = false) ->
                               lstrip t = t).
  { intros [|d t] (d' & Hd & Hd'); [done|]. simpl in Hd. injection Hd as ->.
    cbn [lstrip]. by rewrite Hd'. }
  unfold strip, rstrip. rewrite (Hl s) by eauto.
  rewrite (Hl (rev s)); [apply rev_involutive|].
  exists z. split; [|done]. rewrite <- (rev_involutive s) in Hlast.
  by rewrite last_rev in Hlast.
Qed.

Lemma join_trimmed sep p paras :
  Forall trimmed (p :: paras) -> trimmed (join sep (p :: paras)).
Proof.
  revert p. induction paras as [|q paras IH]; intros p Hall.
  - by inversion Hall.
  - inversion Hall as [|? ? Hp Hrest]; subst.
    specialize (IH q Hrest).
    change (join sep (p :: q :: paras)) with (p ++ sep ++ join sep (q :: paras)).
    destruct Hp as [(c & Hhd & Hc) _]. destruct IH as [_ (z & Hlast & Hz)].
    split.
    + exists c. split; [|done]. by destruct p.
    + exists z. split; [|done]. rewrite app_assoc, last_app. by rewrite Hlast.
Qed.

Lemma tidy_trimmed s : tidy s -> trimmed s.
Proof.
  intros Hs. destruct (tidy_paragraph_ok s Hs) as (Hne & Hhd & Hlast & _). split.
  - destruct s as [|c s]; [done|]. exists c. split; [done|]. by apply Hhd.
  - destruct (list.last s) as [z|] eqn:Hz.
    + exists z. split; [done|]. by apply Hlast.
    + by apply last_None in Hz.
Qed.

(** X27. A formatted page has no white space at its start or at its end:
    stripping it again, as the reader of the text layer does, changes
    nothing. *)
Theorem format_is_stripped (text : str) :
  strip (_format_page_text text) = _format_page_text text.
Proof.
  rewrite format_page_text_join.
  destruct (truthy (strip text)); [|done].
  pose proof (paragraphs_tidy text) as Htidy.
  destruct (paragraphs_of text) as [|p paras]; [done|].
  apply trimmed_strip, join_trimmed.
  eapply List.Forall_impl; [apply tidy_trimmed|exact Htidy].
Qed.
